(** * Comment remover: the core of [main.py]

    A shallow embedding of [CommentRemoverLogic] (the pattern registry, the
    extension map, [get_language_from_filename] and [remove_comments]),
    together with the parts of the Python runtime it calls: [str.split],
    [str.join], [str.strip], [str.lower], [os.path.splitext] and [re.sub]
    for the regular expressions that occur in the registry. *)

From Stdlib Require Import NArith ZArith String Ascii.
From stdpp Require Import base option list gmap.

Local Open Scope nat_scope.
Local Open Scope list_scope.

(** ** Text

    A Python [str] is a sequence of Unicode code points. *)

Module Text.

Definition char := N.
Definition str := list char.

(** [u "abc"] is the text of an ASCII literal. *)
Definition u (s : string) : str := map N_of_ascii (list_ascii_of_string s).

Definition nl : char := 10%N.
Definition dquote : char := 34%N.
Definition squote : char := 39%N.

(** [Py_UNICODE_ISSPACE]: the characters [str.strip()] removes. *)
Definition isspace (c : char) : bool :=
  ((9 <=? c) && (c <=? 13) || (28 <=? c) && (c <=? 32)
   || (c =? 133) || (c =? 160) || (c =? 5760)
   || (8192 <=? c) && (c <=? 8202)
   || (c =? 8232) || (c =? 8233) || (c =? 8239) || (c =? 8287)
   || (c =? 12288))%N.

Fixpoint lstrip (s : str) : str :=
  match s with
  | c :: s' => if isspace c then lstrip s' else s
  | [] => []
  end.

Definition rstrip (s : str) : str := rev (lstrip (rev s)).

(** [s.strip()] *)
Definition strip (s : str) : str := rstrip (lstrip s).

(** The truth value of a text: whether it is not empty. *)
Definition truthy (s : str) : bool :=
  match s with [] => false | _ :: _ => true end.

(** The text is empty or all whitespace. *)
Definition blank (s : str) : bool := forallb isspace s.

(** [s.split(sep)] for a one-character separator: never the empty list. *)
Fixpoint split (sep : char) (s : str) : list str :=
  match s with
  | [] => [[]]
  | c :: s' =>
      if (c =? sep)%N then [] :: split sep s'
      else match split sep s' with
           | l :: ls => (c :: l) :: ls
           | [] => [[c]]
           end
  end.

(** [sep.join(ls)] *)
Fixpoint join (sep : str) (ls : list str) : str :=
  match ls with
  | [] => []
  | [l] => l
  | l :: ls' => l ++ sep ++ join sep ls'
  end.

(** [s.startswith(t)] *)
Fixpoint startswith (t s : str) : bool :=
  match t, s with
  | [], _ => true
  | a :: t', b :: s' => (a =? b)%N && startswith t' s'
  | _ :: _, [] => false
  end.

(** [t in s] *)
Fixpoint contains (t s : str) : bool :=
  startswith t s || match s with [] => false | _ :: s' => contains t s' end.

(** [s.rfind(c)] for a single character: the last index, or -1. *)
Fixpoint rfind_from (c : char) (s : str) (i : Z) (last : Z) : Z :=
  match s with
  | [] => last
  | x :: s' => rfind_from c s' (i + 1)%Z (if (x =? c)%N then i else last)
  end.

Definition rfind (c : char) (s : str) : Z := rfind_from c s 0%Z (-1)%Z.

(** [str.lower] on one code point.  ASCII capitals, and the two code points
    outside ASCII whose lower-case form contains an ASCII letter (KELVIN SIGN
    and LATIN CAPITAL LETTER I WITH DOT ABOVE), are mapped as the Unicode
    tables do.  The lower-case form of every other code point outside ASCII
    lies outside ASCII as well, and is left in place here. *)
Definition lower_char (c : char) : str :=
  if ((65 <=? c) && (c <=? 90))%N then [(c + 32)%N]
  else if (c =? 8490)%N then [107%N]
  else if (c =? 304)%N then [105%N; 775%N]
  else [c].

Definition lower (s : str) : str := flat_map lower_char s.

End Text.

Import Text.

(** ** Regular expressions: the fragment of Python's [re] the registry uses

    The engine is a backtracking matcher: alternatives are tried left to
    right, a greedy repetition tries one more iteration before stopping and
    a lazy one stops before trying one more.  No flag is set, so [.] matches
    every character but the newline and [$] matches at the end of the text
    and before a newline that ends the text. *)

Module Re.

Inductive regex : Type :=
| Eps                                         (* the empty pattern *)
| Lit (c : char)                              (* a literal character *)
| Dot                                         (* [.] *)
| Eol                                         (* [$] *)
| Cat (r1 r2 : regex)                         (* [r1 r2] *)
| Alt (r1 r2 : regex)                         (* [r1|r2] *)
| Grp (r : regex)                             (* [(r)] *)
| Rep (greedy : bool) (lo : nat) (r : regex). (* [r{lo,}] and [r{lo,}?] *)

(** A literal token, character by character. *)
Definition lit (t : str) : regex := foldr (λ c r, Cat (Lit c) r) Eps t.

Definition star (r : regex) : regex := Rep true 0 r.       (* [r*] *)
Definition lazy_star (r : regex) : regex := Rep false 0 r. (* [r*?] *)

(** The continuation [k] receives the text that is left after the match and
    answers with what is left after the whole pattern, or [None] to make the
    matcher backtrack. *)
Definition cont := str → option str.

(** The iterations of a repetition.  An iteration that consumes nothing is
    refused, so [fuel], which starts at the length of the text, is never the
    reason an iteration is not tried. *)
Fixpoint rep_loop (body : str → cont → option str) (greedy : bool) (k : cont)
    (fuel lo : nat) (s : str) : option str :=
  let again (_ : unit) :=
    match fuel with
    | 0 => None
    | S fuel' =>
        body s (λ s', if length s' <? length s
                      then rep_loop body greedy k fuel' (pred lo) s'
                      else None)
    end in
  match lo with
  | S _ => again ()
  | 0 =>
      if greedy
      then match again () with Some x => Some x | None => k s end
      else match k s with Some x => Some x | None => again () end
  end.

Fixpoint rmatch (r : regex) (s : str) (k : cont) : option str :=
  match r with
  | Eps => k s
  | Lit c =>
      match s with
      | x :: s' => if (x =? c)%N then k s' else None
      | [] => None
      end
  | Dot =>
      match s with
      | x :: s' => if (x =? nl)%N then None else k s'
      | [] => None
      end
  | Eol =>
      match s with
      | [] => k s
      | [x] => if (x =? nl)%N then k s else None
      | _ => None
      end
  | Cat r1 r2 => rmatch r1 s (λ s1, rmatch r2 s1 k)
  | Alt r1 r2 =>
      match rmatch r1 s k with
      | Some x => Some x
      | None => rmatch r2 s k
      end
  | Grp r1 => rmatch r1 s k
  | Rep greedy lo r1 => rep_loop (rmatch r1) greedy k (length s) lo s
  end.

(** One attempt of the pattern at the start of [s]: the number of characters
    of the match.  With [must_advance] an empty match is refused and the
    matcher backtracks into the next candidate. *)
Definition match_len (r : regex) (must_advance : bool) (s : str) : option nat :=
  (λ rest, length s - length rest) <$>
  rmatch r s (λ rest,
    if must_advance && (length rest =? length s) then None else Some rest).

(** [re.sub(r, repl, s)] for a replacement without group references.  The
    scan goes through the text from left to right: [skip] characters still
    belong to the match that was just replaced; otherwise the pattern is
    tried at the current position.  After an empty match the same position
    is tried once more for a match that is not empty, as the engine does. *)
Fixpoint sub_from (r : regex) (repl : str) (skip : nat) (s : str) : str :=
  match s with
  | [] =>
      match skip, match_len r false [] with
      | 0, Some _ => repl
      | _, _ => []
      end
  | c :: s' =>
      match skip with
      | S n => sub_from r repl n s'
      | 0 =>
          match match_len r false s with
          | Some (S n) => repl ++ sub_from r repl n s'
          | Some 0 =>
              repl ++
              match match_len r true s with
              | Some (S n) => repl ++ sub_from r repl n s'
              | _ => c :: sub_from r repl 0 s'
              end
          | None => c :: sub_from r repl 0 s'
          end
      end
  end.

Definition sub (r : regex) (repl : str) (s : str) : str := sub_from r repl 0 s.

End Re.

Import Re.

(** ** [CommentRemoverLogic] *)

(** An entry of [self.patterns]: a dictionary with the optional keys
    ['single_line'] and ['multi_line']. *)
Record profile : Type := Profile {
  single_line : option regex;
  multi_line : option regex
}.

Record CommentRemoverLogic : Type := {
  patterns : gmap str profile;
  extension_map : gmap str str
}.

(** [(.|\n)]: any character at all. *)
Definition any_char : regex := Grp (Alt Dot (Lit nl)).

(** [r'#.*$'] *)
Definition py_single : regex := Cat (lit (u "#")) (Cat (star Dot) Eol).

(** The ['multi_line'] pattern of Python: three double quotes, [(.|\n)*?]
    and three double quotes, in a group; or the same with single quotes. *)
Definition py_multi : regex :=
  Alt (Grp (Cat (lit [dquote; dquote; dquote])
              (Cat (lazy_star any_char) (lit [dquote; dquote; dquote]))))
      (Grp (Cat (lit [squote; squote; squote])
              (Cat (lazy_star any_char) (lit [squote; squote; squote])))).

(** [r'//.*$'] *)
Definition c_single : regex := Cat (lit (u "//")) (Cat (star Dot) Eol).

(** [r'/\*(.|\n)*?\*/'] *)
Definition c_multi : regex :=
  Cat (lit (u "/*")) (Cat (lazy_star any_char) (lit (u "*/"))).

(** [r'<!--(.|\n)*?-->'] *)
Definition html_multi : regex :=
  Cat (lit (u "<!--")) (Cat (lazy_star any_char) (lit (u "-->"))).

(** [r'--.*$'] *)
Definition sql_single : regex := Cat (lit (u "--")) (Cat (star Dot) Eol).

(** [r'--\[\[(.|\n)*?\]\]'] *)
Definition lua_multi : regex :=
  Cat (lit (u "--[[")) (Cat (lazy_star any_char) (lit (u "]]"))).

(** The two shapes of the patterns above: a token and the rest of the line,
    and an opening token, the shortest text, a closing token. *)
Definition line_re (tok : str) : regex := Cat (lit tok) (Cat (star Dot) Eol).

Definition block_re (op cl : str) : regex :=
  Cat (lit op) (Cat (lazy_star any_char) (lit cl)).

Definition c_family : str := u "C/C++/Java/C#/JavaScript/Rust".

(** [__init__]: the two tables of an instance. *)
Definition init : CommentRemoverLogic := {|
  patterns := list_to_map [
    (u "Python", Profile (Some py_single) (Some py_multi));
    (c_family, Profile (Some c_single) (Some c_multi));
    (u "HTML/XML", Profile None (Some html_multi));
    (u "SQL", Profile (Some sql_single) (Some c_multi));
    (u "Lua", Profile (Some sql_single) (Some lua_multi))
  ];
  extension_map := list_to_map [
    (u ".py", u "Python"); (u ".pyw", u "Python");
    (u ".c", c_family); (u ".cpp", c_family);
    (u ".h", c_family); (u ".hpp", c_family);
    (u ".java", c_family); (u ".cs", c_family);
    (u ".js", c_family); (u ".ts", c_family);
    (u ".rs", c_family);
    (u ".html", u "HTML/XML"); (u ".htm", u "HTML/XML");
    (u ".xml", u "HTML/XML");
    (u ".sql", u "SQL");
    (u ".lua", u "Lua")
  ]
|}.

(** [genericpath._splitext(p, sep, altsep, extsep)]: the loop that skips the
    leading dots of the file name runs over the [n] indices from [i] up to
    the last dot. *)
Fixpoint skip_leading_dots (p : str) (extsep : char) (dotIndex : nat)
    (n : nat) (i : nat) : str * str :=
  match n with
  | 0 => (p, [])
  | S n' =>
      if negb (bool_decide (take 1 (drop i p) = [extsep]))
      then (take dotIndex p, drop dotIndex p)
      else skip_leading_dots p extsep dotIndex n' (S i)
  end.

Definition _splitext (p : str) (sep : char) (altsep : option char)
    (extsep : char) : str * str :=
  let sepIndex := rfind sep p in
  let sepIndex :=
    match altsep with
    | Some a => Z.max sepIndex (rfind a p)
    | None => sepIndex
    end in
  let dotIndex := rfind extsep p in
  if (sepIndex <? dotIndex)%Z
  then skip_leading_dots p extsep (Z.to_nat dotIndex)
         (Z.to_nat (dotIndex - (sepIndex + 1))) (Z.to_nat (sepIndex + 1))
  else (p, []).

(** The path flavour of the platform: [os.sep] and [os.altsep]. *)
Record os_path : Type := { sep : char; altsep : option char }.

Definition posixpath : os_path := {| sep := 47%N; altsep := None |}.
Definition ntpath : os_path := {| sep := 92%N; altsep := Some 47%N |}.

(** [os.path.splitext] *)
Definition splitext (os : os_path) (p : str) : str * str :=
  _splitext p (sep os) (altsep os) 46%N.

Definition get_language_from_filename (os : os_path)
    (self : CommentRemoverLogic) (filename : str) : str :=
  let ext := lower (splitext os filename).2 in
  default (u "Python") (extension_map self !! ext).

(** The body of the [for line in lines] loop: [result_lines] is threaded
    through as the state. *)
Definition loop_body (pat : regex) (result_lines : list str) (line : str)
    : list str :=
  let is_originally_empty := negb (truthy (strip line)) in
  let cleaned_line := sub pat [] line in
  if truthy (strip cleaned_line) || is_originally_empty
  then result_lines ++ [cleaned_line]
  else result_lines.

(** [r'\n{3,}'] *)
Definition blank_run : regex := Rep true 3 (Lit nl).

Definition remove_comments (self : CommentRemoverLogic) (code : str)
    (language : str) : str :=
  match patterns self !! language with
  | None => code
  | Some patterns =>
      let processed_code := code in
      let processed_code :=
        match multi_line patterns with
        | Some pat => sub pat [] processed_code
        | None => processed_code
        end in
      let processed_code :=
        match single_line patterns with
        | Some pat =>
            let lines := split nl processed_code in
            let result_lines := foldl (loop_body pat) [] lines in
            join [nl] result_lines
        | None => processed_code
        end in
      let processed_code := sub blank_run [nl; nl] processed_code in
      strip processed_code
  end.

(** ** [CommentRemoverApp]: the computations on file names *)

(** [sepIndex] in [_splitext]: the index of the last separator. *)
Definition sep_index (os : os_path) (p : str) : Z :=
  match altsep os with
  | Some a => Z.max (rfind (sep os) p) (rfind a p)
  | None => rfind (sep os) p
  end.

(** A character that separates the components of a path. *)
Definition is_sep (os : os_path) (c : char) : Prop :=
  c = sep os ∨ altsep os = Some c.

(** An ASCII capital as the small letter, every other character as it is:
    two texts with the same image differ in the case of ASCII letters
    only. *)
Definition ascii_fold (c : char) : char :=
  if ((65 <=? c) && (c <=? 90))%N then (c + 32)%N else c.

(** [save_file_dialog]: the file name that the dialog proposes, from
    [self.current_filepath], which is [None] or the path of the file that
    was loaded. *)
Definition default_filename (os : os_path) (current_filepath : option str)
    : str :=
  match current_filepath with
  | Some path =>
      if truthy path
      then let '(base, ext) := splitext os path in
           base ++ u "_nocomments" ++ ext
      else []
  | None => []
  end.

(** ** [ThemeManager], and what the window and the colour dialog do with it

    A [KeyError] is [None]. *)

Module Theme.

Record ThemeManager : Type := {
  themes : gmap str (gmap str str);
  current_theme : str;
  custom_colors : gmap str str
}.

Definition dark : gmap str str := list_to_map [
  (u "background", u "#2B2B2B");
  (u "text", u "#A9B7C6");
  (u "button", u "#3C3F41");
  (u "button_hover", u "#4B4D4F");
  (u "button_pressed", u "#2A2C2E");
  (u "accent", u "#007ACC");
  (u "accent_hover", u "#008AE6");
  (u "accent_pressed", u "#006AB3");
  (u "border", u "#4B4B4B");
  (u "input_background", u "#313335")
].

Definition light : gmap str str := list_to_map [
  (u "background", u "#F5F5F5");
  (u "text", u "#333333");
  (u "button", u "#E0E0E0");
  (u "button_hover", u "#D0D0D0");
  (u "button_pressed", u "#C0C0C0");
  (u "accent", u "#2196F3");
  (u "accent_hover", u "#1976D2");
  (u "accent_pressed", u "#1565C0");
  (u "border", u "#CCCCCC");
  (u "input_background", u "#FFFFFF")
].

Definition monokai : gmap str str := list_to_map [
  (u "background", u "#272822");
  (u "text", u "#F8F8F2");
  (u "button", u "#3E3D32");
  (u "button_hover", u "#4E4D42");
  (u "button_pressed", u "#2E2D22");
  (u "accent", u "#A6E22E");
  (u "accent_hover", u "#B6F23E");
  (u "accent_pressed", u "#96D21E");
  (u "border", u "#3E3D32");
  (u "input_background", u "#1E1F1C")
].

(** [__init__] *)
Definition init : ThemeManager := {|
  themes := list_to_map
    [(u "Dark", dark); (u "Light", light); (u "Monokai", monokai)];
  current_theme := u "Dark";
  custom_colors := ∅
|}.

(** The default, [self.themes['Dark']], is an argument of [dict.get]: it is
    looked up before [dict.get] is called, for every name. *)
Definition get_theme (self : ThemeManager) (theme_name : option str)
    : option (gmap str str) :=
  let theme_name :=
    match theme_name with
    | None => current_theme self
    | Some name => name
    end in
  fallback ← themes self !! u "Dark";
  Some (default fallback (themes self !! theme_name)).

Definition set_theme (self : ThemeManager) (theme_name : str)
    : ThemeManager * bool :=
  match themes self !! theme_name with
  | Some _ =>
      ({| themes := themes self;
          current_theme := theme_name;
          custom_colors := custom_colors self |}, true)
  | None => (self, false)
  end.

(** The f-string of [get_style_sheet]: literal text and the fields
    [{theme['key']}], which are evaluated from left to right. *)
Inductive segment : Type :=
| Txt (text : str)
| Field (key : str).

Fixpoint format (theme : gmap str str) (template : list segment)
    : option str :=
  match template with
  | [] => Some []
  | Txt text :: template' => (text ++.) <$> format theme template'
  | Field key :: template' =>
      match (theme !! key : option str) with
      | Some value => (value ++.) <$> format theme template'
      | None => None
      end
  end.

(** A line of literal text. *)
Definition ln (s : string) : str := u s ++ [nl].

Definition style_template : list segment := [
  Txt ([nl] ++ ln "        QWidget {" ++ u "            background-color: ");
  Field (u "background");
  Txt (ln "; " ++ u "            color: ");
  Field (u "text");
  Txt (ln ";" ++
       ln "            font-family: 'Segoe UI', Arial, sans-serif; " ++
       ln "            font-size: 14px;" ++ ln "        }" ++
       u "        QMainWindow { border: 1px solid ");
  Field (u "border");
  Txt (ln "; }" ++ ln "        QTextEdit {" ++
       u "            background-color: ");
  Field (u "input_background");
  Txt (ln "; " ++ u "            color: ");
  Field (u "text");
  Txt (ln ";" ++ u "            border: 1px solid ");
  Field (u "border");
  Txt (ln "; " ++ ln "            border-radius: 4px; " ++
       ln "            padding: 8px;" ++
       ln "            font-family: 'Consolas', 'Courier New', monospace; " ++
       ln "            font-size: 13px;" ++ ln "        }" ++
       ln "        QPushButton {" ++ u "            background-color: ");
  Field (u "button");
  Txt (ln "; " ++ u "            color: ");
  Field (u "text");
  Txt (ln ";" ++ u "            border: 1px solid ");
  Field (u "border");
  Txt (ln "; " ++ ln "            padding: 8px 16px; " ++
       ln "            border-radius: 4px;" ++ ln "        }" ++
       ln "        QPushButton:hover { " ++
       u "            background-color: ");
  Field (u "button_hover");
  Txt (ln "; " ++ u "            border: 1px solid ");
  Field (u "border");
  Txt (ln "; " ++ ln "        }" ++ ln "        QPushButton:pressed { " ++
       u "            background-color: ");
  Field (u "button_pressed");
  Txt (ln "; " ++ ln "        }" ++
       ln "        QPushButton#ProcessButton {" ++
       u "            background-color: ");
  Field (u "accent");
  Txt (ln "; " ++ ln "            color: white; " ++
       ln "            font-weight: bold;" ++ ln "        }" ++
       ln "        QPushButton#ProcessButton:hover { " ++
       u "            background-color: ");
  Field (u "accent_hover");
  Txt (ln "; " ++ ln "        }" ++
       ln "        QPushButton#ProcessButton:pressed { " ++
       u "            background-color: ");
  Field (u "accent_pressed");
  Txt (ln "; " ++ ln "        }" ++ ln "        QComboBox {" ++
       u "            background-color: ");
  Field (u "button");
  Txt (ln "; " ++ u "            border: 1px solid ");
  Field (u "border");
  Txt (ln ";" ++ ln "            border-radius: 4px; " ++
       ln "            padding: 5px;" ++ ln "        }" ++
       ln "        QComboBox::drop-down { border: none; }" ++
       ln "        QComboBox QAbstractItemView {" ++
       u "            background-color: ");
  Field (u "button");
  Txt (ln "; " ++ u "            border: 1px solid ");
  Field (u "border");
  Txt (ln ";" ++ u "            selection-background-color: ");
  Field (u "accent");
  Txt (ln ";" ++ ln "        }" ++ u "        QLabel { color: ");
  Field (u "text");
  Txt (ln "; }" ++ u "        QFrame[frameShape=" ++ [dquote] ++ u "5" ++
       [dquote] ++ u "] { color: ");
  Field (u "border");
  Txt (ln "; }" ++ ln "        QMenuBar {" ++
       u "            background-color: ");
  Field (u "background");
  Txt (ln ";" ++ u "            color: ");
  Field (u "text");
  Txt (ln ";" ++ ln "        }" ++ ln "        QMenuBar::item:selected {" ++
       u "            background-color: ");
  Field (u "accent");
  Txt (ln ";" ++ ln "        }" ++ ln "        QMenu {" ++
       u "            background-color: ");
  Field (u "background");
  Txt (ln ";" ++ u "            color: ");
  Field (u "text");
  Txt (ln ";" ++ u "            border: 1px solid ");
  Field (u "border");
  Txt (ln ";" ++ ln "        }" ++ ln "        QMenu::item:selected {" ++
       u "            background-color: ");
  Field (u "accent");
  Txt (ln ";" ++ ln "        }" ++ u "        ")
].

Definition get_style_sheet (self : ThemeManager) (theme_name : option str)
    : option str :=
  theme ← get_theme self theme_name; format theme style_template.

(** [ColorCustomizationDialog]: [self.color_inputs], the texts of the line
    edits by colour name.  [init_ui] makes one line edit, with one button,
    for every colour of the current theme. *)
Definition init_ui (theme_manager : ThemeManager) : option (gmap str str) :=
  get_theme theme_manager None.

(** [choose_color], behind the button of [color_name]: [picked] is
    [color.name()] when the colour that the colour dialog returned is valid,
    and [None] when it is not.  A colour without a line edit has no button. *)
Definition choose_color (color_inputs : gmap str str) (color_name : str)
    (picked : option str) : gmap str str :=
  match picked, color_inputs !! color_name with
  | Some name, Some _ => <[color_name := name]> color_inputs
  | _, _ => color_inputs
  end.

Definition get_custom_colors (color_inputs : gmap str str) : gmap str str :=
  color_inputs.

(** [CommentRemoverApp], as far as themes go: the theme manager and the
    style sheet that the window has. *)
Record window : Type := {
  theme_manager : ThemeManager;
  style_sheet : str
}.

Definition change_theme (self : window) (theme_name : str) : option window :=
  let '(manager, changed) := set_theme (theme_manager self) theme_name in
  if changed
  then sheet ← get_style_sheet manager None;
       Some {| theme_manager := manager; style_sheet := sheet |}
  else Some self.

(** [show_color_customization]: the dialog is built, the user clicks on
    buttons, and the dialog is accepted or not. *)
Definition show_color_customization (self : window)
    (clicks : list (str * option str)) (accepted : bool) : option window :=
  color_inputs ← init_ui (theme_manager self);
  let color_inputs :=
    foldl (λ inputs click, choose_color inputs click.1 click.2)
      color_inputs clicks in
  if accepted
  then
    let custom_colors := get_custom_colors color_inputs in
    let manager := theme_manager self in
    let manager :=
      {| themes := <[u "Custom" := custom_colors]> (themes manager);
         current_theme := current_theme manager;
         custom_colors := Theme.custom_colors manager |} in
    let manager := (set_theme manager (u "Custom")).1 in
    sheet ← get_style_sheet manager None;
    Some {| theme_manager := manager; style_sheet := sheet |}
  else Some self.

(** What the user does in the theme menu. *)
Inductive event : Type :=
| ChangeTheme (theme_name : str)
| CustomizeColors (clicks : list (str * option str)) (accepted : bool).

Definition handle (self : window) (e : event) : option window :=
  match e with
  | ChangeTheme theme_name => change_theme self theme_name
  | CustomizeColors clicks accepted =>
      show_color_customization self clicks accepted
  end.

Fixpoint run (self : window) (events : list event) : option window :=
  match events with
  | [] => Some self
  | e :: events' => self' ← handle self e; run self' events'
  end.

(** [CommentRemoverApp.__init__]: a new theme manager, and [init_ui] sets
    the style sheet. *)
Definition start : option window :=
  sheet ← get_style_sheet init None;
  Some {| theme_manager := init; style_sheet := sheet |}.

(** The colours that the style sheet names. *)
Definition color_names : list str :=
  [u "background"; u "text"; u "button"; u "button_hover";
   u "button_pressed"; u "accent"; u "accent_hover"; u "accent_pressed";
   u "border"; u "input_background"].

Definition complete (theme : gmap str str) : Prop :=
  Forall (λ key, is_Some (theme !! key)) color_names.

(** The state that the window keeps: the three themes of [__init__] are as
    they were made, every theme holds all the colours that the style sheet
    names, the current theme exists and the style sheet of the window is
    the one of the current theme. *)
Definition sound (self : window) : Prop :=
  let manager := theme_manager self in
  themes manager !! u "Dark" = Some dark ∧
  themes manager !! u "Light" = Some light ∧
  themes manager !! u "Monokai" = Some monokai ∧
  (∀ name theme, themes manager !! name = Some theme → complete theme) ∧
  ∃ theme, themes manager !! current_theme manager = Some theme ∧
           format theme style_template = Some (style_sheet self).

(** The last valid colour that was picked for [color_name]. *)
Definition last_pick (color_name : str) (clicks : list (str * option str))
    : option str :=
  foldl (λ acc click,
           match click.2 with
           | Some name => if decide (click.1 = color_name) then Some name else acc
           | None => acc
           end) None clicks.

End Theme.

(** ** The steps as the specification words them

    The table of comment tokens of section 4.1 and the four steps of
    section 4.2, written as direct scans of the text.  The theorems below
    compare them with what [remove_comments] computes with [re.sub]. *)

Module Spec.

(** The comment tokens of a language: the token that starts a comment running
    to the end of the line, and the pairs of tokens that open and close a
    block comment. *)
Record syntax : Type := Syntax {
  line_token : option str;
  block_tokens : list (str * str)
}.

Definition triple (c : char) : str := [c; c; c].

Definition comment_syntax : gmap str syntax := list_to_map [
  (u "Python",
   Syntax (Some (u "#"))
     [(triple dquote, triple dquote); (triple squote, triple squote)]);
  (c_family, Syntax (Some (u "//")) [(u "/*", u "*/")]);
  (u "HTML/XML", Syntax None [(u "<!--", u "-->")]);
  (u "SQL", Syntax (Some (u "--")) [(u "/*", u "*/")]);
  (u "Lua", Syntax (Some (u "--")) [(u "--[[", u "]]")])
].

(** The index of the first occurrence of [t] in [s]. *)
Fixpoint find (t s : str) : option nat :=
  if startswith t s then Some 0
  else match s with [] => None | _ :: s' => S <$> find t s' end.

(** The length of the shortest block comment that starts at the first
    character of [s]: an opening token, then everything up to and including
    the nearest closing token. *)
Fixpoint block_span (delims : list (str * str)) (s : str) : option nat :=
  match delims with
  | [] => None
  | (op, cl) :: delims' =>
      match (if startswith op s then find cl (drop (length op) s) else None)
      with
      | Some i => Some (length op + i + length cl)
      | None => block_span delims' s
      end
  end.

(** A scan from the left: where [span] finds a span at the current position
    its characters are deleted and the scan goes on after them; any other
    character is kept.  [skip] counts the characters that are still to be
    deleted. *)
Fixpoint delete_spans (span : str → option nat) (skip : nat) (s : str) : str :=
  match s with
  | [] => []
  | c :: s' =>
      match skip with
      | S n => delete_spans span n s'
      | 0 =>
          match span s with
          | Some (S n) => delete_spans span n s'
          | _ => c :: delete_spans span 0 s'
          end
      end
  end.

(** Step 1: every block comment is deleted. *)
Definition delete_block_comments (delims : list (str * str)) (s : str) : str :=
  delete_spans (block_span delims) 0 s.

(** The part of a line before the first occurrence of the token [t]. *)
Fixpoint cut_at (t line : str) : str :=
  if startswith t line then []
  else match line with [] => [] | c :: line' => c :: cut_at t line' end.

Definition strip_line (tok : option str) (line : str) : str :=
  match tok with Some t => cut_at t line | None => line end.

(** A line is kept if something other than whitespace is left of it, or if
    it was blank to begin with. *)
Definition keeps (tok : option str) (line : str) : bool :=
  negb (blank (strip_line tok line)) || blank line.

(** Step 2: line by line. *)
Definition remove_line_comments (tok : option str) (s : str) : str :=
  join [nl] (strip_line tok <$> List.filter (keeps tok) (split nl s)).

(** Step 3: a newline that two more newlines follow is dropped, which leaves
    two newlines of every run of three or more. *)
Fixpoint collapseBlankRuns (s : str) : str :=
  match s with
  | [] => []
  | c :: s' =>
      if (c =? nl)%N && startswith [nl; nl] s' then collapseBlankRuns s'
      else c :: collapseBlankRuns s'
  end.

(** Step 4 *)
Definition trim (s : str) : str := strip s.

Definition pipeline (sy : syntax) (s : str) : str :=
  trim (collapseBlankRuns
          (remove_line_comments (line_token sy)
             (delete_block_comments (block_tokens sy) s))).

(** A registry entry implements a row of the table of tokens: its
    single-line pattern is the token followed by the rest of the line, and
    its block pattern matches, at any position, the shortest block comment
    that starts there. *)
Definition one_line (t : str) : Prop := t ≠ [] ∧ nl ∉ t.

(** The tokens that start a comment are not empty and lie on one line. *)
Definition well_formed (sy : syntax) : Prop :=
  (∀ t, line_token sy = Some t → one_line t) ∧
  Forall (λ d, one_line d.1) (block_tokens sy).

Definition implements (p : profile) (sy : syntax) : Prop :=
  well_formed sy ∧
  single_line p = line_re <$> line_token sy ∧
  match multi_line p with
  | Some r => ∀ x, match_len r false x = block_span (block_tokens sy) x
  | None => block_tokens sy = []
  end.

(** No token that starts a comment occurs in the text. *)
Definition token_free (sy : syntax) (s : str) : Prop :=
  (∀ t, line_token sy = Some t → contains t s = false) ∧
  Forall (λ d, contains d.1 s = false) (block_tokens sy).

(** Whether a token of the language occurs in the text. *)
Definition has_line_token (sy : syntax) (s : str) : bool :=
  match line_token sy with Some t => contains t s | None => false end.

Definition has_block_token (sy : syntax) (s : str) : bool :=
  existsb (λ d, contains d.1 s || contains d.2 s) (block_tokens sy).

(** Reading "stripped from the first unescaped occurrence of the token": an
    occurrence that directly follows the escape character [esc] does not
    start a comment. *)
Fixpoint cut_at_unescaped (esc : char) (t : str) (escaped : bool) (line : str)
    : str :=
  if negb escaped && startswith t line then []
  else match line with
       | [] => []
       | c :: line' => c :: cut_at_unescaped esc t (c =? esc)%N line'
       end.

(** The Python scenario of section 8. *)
Definition scenario_python : str :=
  u "x = 1  # set x" ++ [nl; nl; nl; nl] ++
  u "def f():" ++ [nl] ++ u "    pass  # noop" ++ [nl].

Definition backslash : char := 92%N.

(** A registry with one language that has a single-line pattern only. *)
Definition shell_only : CommentRemoverLogic := {|
  patterns := {[ u "Shell" := Profile (Some (line_re (u "#"))) None ]};
  extension_map := ∅
|}.

(** The first text, among [s] and the texts left after dropping more and
    more of its characters, that [k] accepts. *)
Fixpoint first_success (k : cont) (s : str) : option str :=
  match k s with
  | Some x => Some x
  | None => match s with [] => None | _ :: s' => first_success k s' end
  end.

(** The number of newlines [s] starts with. *)
Fixpoint newlines (s : str) : nat :=
  match s with
  | c :: s' => if (c =? nl)%N then S (newlines s') else 0
  | [] => 0
  end.

End Spec.

Import Spec.

(** ** The matcher on the shapes of pattern the registry uses *)

Section engine.

Implicit Types (s t : str) (k : cont) (c : char).

Lemma rep_loop_succ body greedy k fuel lo s :
  rep_loop body greedy k (S fuel) lo s =
  let again :=
    body s (λ s', if length s' <? length s
                  then rep_loop body greedy k fuel (pred lo) s' else None) in
  match lo with
  | S _ => again
  | 0 =>
      if greedy
      then match again with Some x => Some x | None => k s end
      else match k s with Some x => Some x | None => again end
  end.
Proof. done. Qed.

Lemma rep_loop_nil body greedy k fuel lo :
  (∀ k', body [] k' = None) →
  rep_loop body greedy k fuel lo [] =
  match lo with S _ => None | 0 => k [] end.
Proof.
  intros Hbody. destruct fuel; simpl; rewrite ?Hbody;
    destruct lo, greedy; try done; by destruct (k []).
Qed.

Lemma shorter_tail c s : (length s <? length (c :: s)) = true.
Proof. apply Nat.ltb_lt. simpl. lia. Qed.

Lemma rmatch_lit t s k :
  rmatch (lit t) s k = if startswith t s then k (drop (length t) s) else None.
Proof.
  revert s. induction t as [|a t IH]; intros [|b s]; simpl; try done.
  rewrite (N.eqb_sym b a). destruct (a =? b)%N; simpl; [apply IH | done].
Qed.

Lemma rmatch_any_char c s k : rmatch any_char (c :: s) k = k s.
Proof. simpl. destruct (c =? nl)%N; [done | by destruct (k s)]. Qed.

Lemma rmatch_any_char_nil k : rmatch any_char [] k = None.
Proof. done. Qed.

(** [(.|\n)*?]: the shortest run of characters after which the rest of the
    pattern matches. *)
Lemma lazy_any_loop k fuel s :
  length s ≤ fuel →
  rep_loop (rmatch any_char) false k fuel 0 s = first_success k s.
Proof.
  revert s. induction fuel as [|fuel IH]; intros [|c s] Hlen; simpl in Hlen;
    try lia.
  - simpl. by destruct (k []).
  - rewrite rep_loop_nil by done. simpl. by destruct (k []).
  - rewrite rep_loop_succ. cbn zeta. rewrite rmatch_any_char, shorter_tail.
    rewrite IH by lia. simpl. by destruct (k (c :: s)).
Qed.

(** [.*$] on a line: all of it. *)
Lemma greedy_dot_eol k fuel s :
  nl ∉ s → length s ≤ fuel →
  rep_loop (rmatch Dot) true (λ s', rmatch Eol s' k) fuel 0 s = k [].
Proof.
  revert s. induction fuel as [|fuel IH]; intros [|c s] Hnl Hlen;
    simpl in Hlen; try lia.
  - done.
  - by rewrite rep_loop_nil.
  - apply not_elem_of_cons in Hnl as [Hc Hnl].
    rewrite rep_loop_succ. cbn zeta. cbn [rmatch].
    destruct (N.eqb_spec c nl) as [->|_]; [done|].
    rewrite shorter_tail, IH by (done || lia).
    destruct (k []) eqn:Hk; [done|].
    destruct s as [|c' s]; [|done].
    by destruct (N.eqb_spec c nl).
Qed.

(** [\n{lo,}]: all the newlines at the front, when there are [lo] or more. *)
Lemma greedy_newlines fuel lo s :
  length s ≤ fuel →
  rep_loop (rmatch (Lit nl)) true Some fuel lo s =
  if lo <=? newlines s then Some (drop (newlines s) s) else None.
Proof.
  revert lo s. induction fuel as [|fuel IH]; intros lo [|c s] Hlen;
    simpl in Hlen; try lia.
  - by destruct lo.
  - rewrite rep_loop_nil by done. by destruct lo.
  - rewrite rep_loop_succ. cbn zeta. cbn [rmatch newlines].
    destruct (c =? nl)%N; [|by destruct lo].
    rewrite shorter_tail, IH by lia.
    destruct lo as [|lo]; simpl; [|done]. by destruct (newlines s).
Qed.

End engine.


(** ** Texts: prefixes, occurrences, lines, whitespace *)

Section text.

Implicit Types (s t : str) (c : char) (ls : list str).

Lemma startswith_prefix t s : startswith t s = true ↔ t `prefix_of` s.
Proof.
  revert s. induction t as [|a t IH]; intros [|b s]; simpl.
  - split; [intros _; by exists [] | done].
  - split; [intros _; by eexists | done].
  - split; [done | intros [r Hr]; discriminate].
  - rewrite andb_true_iff, N.eqb_eq, IH. split.
    + intros [-> Hp]. by apply prefix_cons.
    + intros Hp. split; [by eapply prefix_cons_inv_1 | by eapply prefix_cons_inv_2].
Qed.

Lemma startswith_app t r : startswith t (t ++ r) = true.
Proof. apply startswith_prefix. by exists r. Qed.

Lemma startswith_length t s : startswith t s = true → length t ≤ length s.
Proof. rewrite startswith_prefix. apply prefix_length. Qed.

Lemma startswith_drop t s :
  startswith t s = true → s = t ++ drop (length t) s.
Proof.
  rewrite startswith_prefix. intros [r ->]. by rewrite drop_app_length.
Qed.

Lemma contains_infix t s :
  contains t s = true ↔ ∃ a b, s = a ++ t ++ b.
Proof.
  induction s as [|c s IH]; simpl.
  - rewrite orb_false_r, startswith_prefix. split.
    + intros [r Hr]. by exists [], r.
    + intros (a & b & Hab). symmetry in Hab.
      apply app_eq_nil in Hab as [-> Hab]. apply app_eq_nil in Hab as [-> _].
      done.
  - rewrite orb_true_iff, startswith_prefix, IH. split.
    + intros [[r ->]|(a & b & ->)]; [by exists [], r | by exists (c :: a), b].
    + intros ([|c' a] & b & Hab); simpl in Hab.
      * left. by exists b.
      * right. injection Hab as -> ->. by exists a, b.
Qed.

Lemma contains_app_false t a b :
  contains t (a ++ b) = false → contains t a = false ∧ contains t b = false.
Proof.
  intros H. split; apply not_true_is_false; intros Hc;
    apply contains_infix in Hc as (x & y & ->);
    apply not_true_iff_false in H; apply H, contains_infix.
  - exists x, (y ++ b). by rewrite <- !app_assoc.
  - exists (a ++ x), y. by rewrite <- !app_assoc.
Qed.

Lemma contains_nil_false t : t ≠ [] → contains t [] = false.
Proof. by destruct t. Qed.

Lemma contains_cons_false t c s :
  contains t (c :: s) = false →
  startswith t (c :: s) = false ∧ contains t s = false.
Proof. simpl. apply orb_false_elim. Qed.

(** *** Lines *)

Lemma split_not_nil s : split nl s ≠ [].
Proof.
  destruct s as [|c s]; simpl; [done|].
  destruct (c =? nl)%N; [done|]. by destruct (split nl s).
Qed.

Lemma join_cons l ls :
  ls ≠ [] → join [nl] (l :: ls) = l ++ nl :: join [nl] ls.
Proof. by destruct ls. Qed.

Lemma join_split s : join [nl] (split nl s) = s.
Proof.
  induction s as [|c s IH]; simpl; [done|].
  pose proof (split_not_nil s) as Hne.
  destruct (N.eqb_spec c nl) as [->|Hc].
  - rewrite join_cons by done. simpl. by rewrite IH.
  - destruct (split nl s) as [|l ls]; [done|].
    rewrite <- IH. by destruct ls.
Qed.

Lemma split_lines s : Forall (λ l, nl ∉ l) (split nl s).
Proof.
  induction s as [|c s IH]; simpl.
  - repeat constructor. apply not_elem_of_nil.
  - destruct (N.eqb_spec c nl) as [->|Hc].
    + constructor; [apply not_elem_of_nil | done].
    + pose proof (split_not_nil s) as Hne.
      destruct (split nl s) as [|l ls]; [done|].
      apply Forall_cons in IH as [Hl Hls]. constructor; [|done].
      apply not_elem_of_cons. split; [congruence | done].
Qed.

Lemma split_app_line l s :
  nl ∉ l → split nl (l ++ nl :: s) = l :: split nl s.
Proof.
  induction l as [|c l IH]; simpl; intros Hl.
  - done.
  - apply not_elem_of_cons in Hl as [Hc Hl].
    destruct (N.eqb_spec c nl) as [->|_]; [done|]. by rewrite IH.
Qed.

Lemma split_line l : nl ∉ l → split nl l = [l].
Proof.
  induction l as [|c l IH]; simpl; intros Hl; [done|].
  apply not_elem_of_cons in Hl as [Hc Hl].
  destruct (N.eqb_spec c nl) as [->|_]; [done|]. by rewrite IH.
Qed.

Lemma split_join ls :
  ls ≠ [] → Forall (λ l, nl ∉ l) ls → split nl (join [nl] ls) = ls.
Proof.
  induction ls as [|l ls IH]; [done|]. intros _ Hls.
  apply Forall_cons in Hls as [Hl Hls].
  destruct ls as [|l' ls]; [by apply split_line|].
  rewrite join_cons by done. rewrite split_app_line by done.
  by rewrite IH.
Qed.

End text.

(** ** [re.sub] with the registry's patterns, as direct scans *)

Section refinement.

Implicit Types (s t op cl tok : str) (c : char) (r : regex).

Lemma match_len_first r s :
  match_len r false s = (λ rest, length s - length rest) <$> rmatch r s Some.
Proof. done. Qed.

Lemma first_success_ext k1 k2 s :
  (∀ x, k1 x = k2 x) → first_success k1 s = first_success k2 s.
Proof.
  intros Hk. induction s as [|c s IH]; simpl; rewrite Hk; [done|].
  by rewrite IH.
Qed.

Lemma find_first_success cl s :
  first_success
    (λ s', if startswith cl s' then Some (drop (length cl) s') else None) s
  = (λ i, drop (i + length cl) s) <$> find cl s.
Proof.
  induction s as [|c s IH]; simpl.
  - by destruct (startswith cl []).
  - destruct (startswith cl (c :: s)); [done|]. rewrite IH.
    by destruct (find cl s).
Qed.

Lemma find_bound cl s i : find cl s = Some i → i + length cl ≤ length s.
Proof.
  revert i. induction s as [|c s IH]; intros i; simpl.
  - destruct (startswith cl []) eqn:E; [|done].
    intros [= <-]. by apply startswith_length in E.
  - destruct (startswith cl (c :: s)) eqn:E.
    + intros [= <-]. by apply startswith_length in E.
    + destruct (find cl s) as [j|]; [|done]. intros [= <-].
      specialize (IH j eq_refl). simpl. lia.
Qed.

Lemma find_none_contains t s : find t s = None ↔ contains t s = false.
Proof.
  induction s as [|c s IH]; simpl.
  - by destruct (startswith t []).
  - destruct (startswith t (c :: s)); simpl; [done|].
    rewrite <- IH. by destruct (find t s).
Qed.

Lemma rmatch_block op cl s :
  rmatch (block_re op cl) s Some =
  if startswith op s
  then (λ i, drop (length op + i + length cl) s) <$> find cl (drop (length op) s)
  else None.
Proof.
  unfold block_re. cbn [rmatch]. rewrite rmatch_lit.
  destruct (startswith op s); [|done].
  unfold lazy_star. cbn [rmatch]. rewrite lazy_any_loop by done.
  rewrite (first_success_ext _
    (λ s', if startswith cl s' then Some (drop (length cl) s') else None))
    by (intros x; apply rmatch_lit).
  rewrite find_first_success.
  destruct (find cl (drop (length op) s)); [|done]. simpl.
  by rewrite drop_drop, Nat.add_assoc.
Qed.

Lemma match_len_block op cl s :
  match_len (block_re op cl) false s = block_span [(op, cl)] s.
Proof.
  rewrite match_len_first, rmatch_block. simpl.
  destruct (startswith op s) eqn:Hop; [|done].
  destruct (find cl (drop (length op) s)) as [i|] eqn:Hi; [|done]. simpl.
  apply find_bound in Hi. apply startswith_length in Hop.
  rewrite length_drop in Hi |- *. f_equal. lia.
Qed.

Lemma rmatch_ext r s k1 k2 : (∀ x, k1 x = k2 x) → rmatch r s k1 = rmatch r s k2.
Proof.
  revert s k1 k2.
  induction r as [| | | |r1 IH1 r2 IH2|r1 IH1 r2 IH2|r1 IH1|g lo r1 IH1];
    intros s k1 k2 Hk; cbn [rmatch]; rewrite ?Hk; try done.
  - destruct s as [|x s]; [done|]. by rewrite Hk.
  - destruct s as [|x s]; [done|]. by rewrite Hk.
  - apply IH1. intros x. by apply IH2.
  - by rewrite (IH1 s k1 k2), (IH2 s k1 k2).
  - by apply IH1.
  - generalize (length s). intros fuel. revert lo s.
    induction fuel as [|fuel IHf]; intros lo s.
    + simpl. rewrite Hk. by destruct lo, g.
    + rewrite !rep_loop_succ. cbn zeta.
      rewrite (IH1 s _ (λ s', if length s' <? length s
                              then rep_loop (rmatch r1) g k2 fuel (pred lo) s'
                              else None)).
      * by rewrite Hk.
      * intros x. destruct (length x <? length s); [apply IHf | done].
Qed.

Lemma block_span_cons op cl delims s :
  block_span ((op, cl) :: delims) s =
  match block_span [(op, cl)] s with
  | Some n => Some n
  | None => block_span delims s
  end.
Proof.
  simpl.
  by destruct (if startswith op s then find cl (drop (length op) s) else None).
Qed.

Lemma match_len_alt r1 r2 s :
  match_len (Alt (Grp r1) (Grp r2)) false s =
  match match_len r1 false s with
  | Some n => Some n
  | None => match_len r2 false s
  end.
Proof.
  rewrite !match_len_first. cbn [rmatch]. by destruct (rmatch r1 s Some).
Qed.

Lemma block_span_pos delims s :
  Forall (λ d, d.1 ≠ []) delims → block_span delims s ≠ Some 0.
Proof.
  induction delims as [|[op cl] delims IH]; [done|].
  intros [Hop Hd]%Forall_cons. simpl in *.
  destruct (if startswith op s then find cl (drop (length op) s) else None);
    [|by apply IH].
  destruct op; [done|]. simpl. done.
Qed.

Lemma delete_spans_ext span1 span2 skip s :
  (∀ x, span1 x = span2 x) →
  delete_spans span1 skip s = delete_spans span2 skip s.
Proof.
  intros H. revert skip. induction s as [|c s IH]; intros [|n]; simpl;
    rewrite ?H, ?IH; try done.
  destruct (span2 (c :: s)) as [[|m]|]; by rewrite ?IH.
Qed.

(** Deleting the matches of a pattern that matches no empty text. *)
Lemma sub_from_delete_spans r skip s :
  (∀ x, match_len r false x ≠ Some 0) →
  sub_from r [] skip s = delete_spans (match_len r false) skip s.
Proof.
  intros Hr. revert skip. induction s as [|c s IH]; intros [|n]; simpl;
    rewrite ?IH; try done.
  - by destruct (match_len r false []).
  - destruct (match_len r false (c :: s)) as [[|m]|] eqn:E;
      [by apply Hr in E | |]; by rewrite ?IH.
Qed.

Lemma sub_from_skip_all r n s : length s ≤ n → sub_from r [] n s = [].
Proof.
  revert n. induction s as [|c s IH]; intros [|n] Hn; simpl in *; try lia.
  - by destruct (match_len r false []).
  - done.
  - apply IH. lia.
Qed.

Lemma rmatch_cat r1 r2 s k :
  rmatch (Cat r1 r2) s k = rmatch r1 s (λ s1, rmatch r2 s1 k).
Proof. done. Qed.

Lemma rmatch_rest_of_line s k :
  nl ∉ s → rmatch (Cat (star Dot) Eol) s k = k [].
Proof. intros Hnl. by apply (greedy_dot_eol k (length s) s). Qed.

Lemma match_len_line tok s :
  nl ∉ s →
  match_len (line_re tok) false s =
  if startswith tok s then Some (length s) else None.
Proof.
  intros Hnl. rewrite match_len_first. unfold line_re.
  rewrite rmatch_cat, rmatch_lit. destruct (startswith tok s); [|done].
  rewrite rmatch_rest_of_line.
  - simpl. f_equal. lia.
  - intros Hin. apply Hnl. rewrite <- (take_drop (length tok) s).
    apply elem_of_app. by right.
Qed.

Lemma match_len_line_none tok s :
  startswith tok s = false → match_len (line_re tok) false s = None.
Proof.
  intros H. rewrite match_len_first. unfold line_re.
  by rewrite rmatch_cat, rmatch_lit, H.
Qed.

(** Step 2 on one line: the line is cut at the first occurrence of the
    token. *)
Lemma sub_line tok line :
  tok ≠ [] → nl ∉ line → sub (line_re tok) [] line = cut_at tok line.
Proof.
  intros Htok. unfold sub. induction line as [|c line IH]; intros Hnl.
  - simpl. destruct tok; [done|]. done.
  - cbn [sub_from]. rewrite match_len_line by done.
    cbn [cut_at]. destruct (startswith tok (c :: line)).
    + simpl. by apply sub_from_skip_all.
    + simpl. rewrite IH; [done|]. by apply not_elem_of_cons in Hnl as [_ ?].
Qed.

End refinement.

(** ** Blank runs *)

Section blank_runs.

Implicit Types (s t : str) (c : char).

Local Arguments N.eqb : simpl never.

Lemma newlines_length s : newlines s ≤ length s.
Proof.
  induction s as [|c s IH]; simpl; [done|]. destruct (c =? nl)%N; lia.
Qed.

Lemma startswith_newlines n s :
  startswith (replicate n nl) s = (n <=? newlines s).
Proof.
  revert s. induction n as [|n IH]; intros [|c s]; simpl; try done.
  rewrite (N.eqb_sym nl c). destruct (c =? nl)%N; simpl; [apply IH | done].
Qed.

Lemma match_len_blank_run s :
  match_len blank_run false s =
  if 3 <=? newlines s then Some (newlines s) else None.
Proof.
  rewrite match_len_first. unfold blank_run. cbn [rmatch].
  rewrite greedy_newlines by done.
  destruct (3 <=? newlines s); [|done]. simpl. f_equal.
  pose proof (newlines_length s). rewrite length_drop. lia.
Qed.

Lemma sub_from_drop r repl n s :
  n ≤ length s → sub_from r repl n s = sub_from r repl 0 (drop n s).
Proof.
  revert n. induction s as [|c s IH]; intros [|n] Hn; simpl in *;
    try done; try lia.
  apply IH. lia.
Qed.

Lemma collapse_cons c s :
  collapseBlankRuns (c :: s) =
  if (c =? nl)%N && (2 <=? newlines s) then collapseBlankRuns s
  else c :: collapseBlankRuns s.
Proof. cbn [collapseBlankRuns]. by rewrite (startswith_newlines 2). Qed.

Lemma newlines_cons c s :
  newlines (c :: s) = if (c =? nl)%N then S (newlines s) else 0.
Proof. done. Qed.

Lemma collapse_newlines s :
  2 ≤ newlines s →
  collapseBlankRuns s = nl :: nl :: collapseBlankRuns (drop (newlines s) s).
Proof.
  induction s as [|c s IH]; [simpl; lia|].
  rewrite newlines_cons, collapse_cons.
  destruct (N.eqb_spec c nl) as [->|_]; [|lia]. intros Hn.
  cbn [andb drop].
  destruct (Nat.leb_spec 2 (newlines s)) as [H2|H2]; [by apply IH|].
  destruct s as [|c' s]; [simpl in Hn; lia|].
  rewrite newlines_cons in Hn, H2 |- *. rewrite collapse_cons.
  destruct (N.eqb_spec c' nl) as [->|_]; [|lia].
  cbn [andb drop].
  destruct (Nat.leb_spec 2 (newlines s)) as [H3|H3]; [lia|].
  by replace (newlines s) with 0 by lia.
Qed.

Lemma newlines_collapse s :
  newlines (collapseBlankRuns s) = Nat.min 2 (newlines s).
Proof.
  induction s as [|c s IH]; [done|].
  rewrite collapse_cons, newlines_cons.
  destruct (N.eqb_spec c nl) as [->|Hc]; cbn [andb].
  - destruct (Nat.leb_spec 2 (newlines s)) as [H2|H2]; [lia|].
    rewrite newlines_cons, N.eqb_refl. lia.
  - rewrite newlines_cons. by destruct (N.eqb_spec c nl).
Qed.

(** Step 3 of the code is step 3 of the specification. *)
Lemma sub_blank_run s : sub blank_run [nl; nl] s = collapseBlankRuns s.
Proof.
  unfold sub.
  induction s as [s IH] using (induction_ltof1 _ (@length char)).
  unfold ltof in IH. destruct s as [|c s]; [done|].
  cbn [sub_from]. rewrite match_len_blank_run.
  destruct (Nat.leb_spec 3 (newlines (c :: s))) as [H3|H3].
  - rewrite (collapse_newlines (c :: s)) by lia. revert H3.
    rewrite newlines_cons.
    destruct (N.eqb_spec c nl) as [->|_]; [|lia]. intros H3.
    pose proof (newlines_length s).
    rewrite sub_from_drop by done. rewrite IH; [done|].
    rewrite length_drop. simpl. lia.
  - rewrite IH by (simpl; lia). rewrite collapse_cons. revert H3.
    rewrite newlines_cons.
    destruct (N.eqb_spec c nl) as [->|_]; [|done]. intros H3. cbn [andb].
    by destruct (Nat.leb_spec 2 (newlines s)); [lia|].
Qed.

Lemma collapse_no_run s :
  contains [nl; nl; nl] (collapseBlankRuns s) = false.
Proof.
  induction s as [|c s IH]; [done|]. rewrite collapse_cons.
  destruct (N.eqb_spec c nl) as [->|Hc]; cbn [andb].
  - destruct (Nat.leb_spec 2 (newlines s)) as [H2|H2]; [done|].
    cbn [contains]. rewrite IH, orb_false_r.
    rewrite (startswith_newlines 3), newlines_cons, N.eqb_refl.
    rewrite newlines_collapse. apply Nat.leb_gt. lia.
  - cbn [contains]. rewrite IH, orb_false_r.
    rewrite (startswith_newlines 3), newlines_cons.
    by destruct (N.eqb_spec c nl).
Qed.

(** A text without a run of three newlines is left as it is. *)
Lemma collapse_fixed s :
  contains [nl; nl; nl] s = false → collapseBlankRuns s = s.
Proof.
  induction s as [|c s IH]; [done|].
  intros [Hs Hc]%contains_cons_false. rewrite collapse_cons.
  rewrite IH by done.
  rewrite (startswith_newlines 3), newlines_cons in Hs.
  destruct (N.eqb_spec c nl) as [->|_]; [|done]. cbn [andb].
  change (3 <=? S (newlines s)) with (2 <=? newlines s) in Hs.
  by rewrite Hs.
Qed.

End blank_runs.

(** ** Whitespace at the ends *)

Section whitespace.

Implicit Types (s t : str) (c : char).

Lemma lstrip_suffix s : ∃ w, s = w ++ lstrip s.
Proof.
  induction s as [|c s [w IH]]; simpl; [by exists []|].
  destruct (isspace c); [|by exists []].
  exists (c :: w). simpl. by rewrite <- IH.
Qed.

Lemma lstrip_head s c t : lstrip s = c :: t → isspace c = false.
Proof.
  induction s as [|x s IH]; simpl; [done|].
  destruct (isspace x) eqn:E; [done|]. by intros [= <- _].
Qed.

Lemma lstrip_nonspace c s : isspace c = false → lstrip (c :: s) = c :: s.
Proof. simpl. by intros ->. Qed.

Lemma lstrip_app_nonspace s c t :
  isspace c = false → lstrip (s ++ c :: t) = lstrip s ++ c :: t.
Proof.
  intros Hc. induction s as [|x s IH]; simpl; [by rewrite Hc|].
  by destruct (isspace x).
Qed.

Lemma lstrip_idemp s : lstrip (lstrip s) = lstrip s.
Proof.
  destruct (lstrip s) as [|c t] eqn:E; [done|].
  apply lstrip_nonspace. by eapply lstrip_head.
Qed.

Lemma rstrip_prefix s : ∃ w, s = rstrip s ++ w.
Proof.
  unfold rstrip. destruct (lstrip_suffix (rev s)) as [w Hw].
  exists (rev w). rewrite <- rev_app_distr, <- Hw. by rewrite rev_involutive.
Qed.

Lemma rstrip_cons_nonspace c s :
  isspace c = false → rstrip (c :: s) = c :: rstrip s.
Proof.
  intros Hc. unfold rstrip. simpl. rewrite lstrip_app_nonspace by done.
  by rewrite rev_app_distr.
Qed.

Lemma rstrip_idemp s : rstrip (rstrip s) = rstrip s.
Proof. unfold rstrip. by rewrite rev_involutive, lstrip_idemp. Qed.

Lemma strip_infix s : ∃ a b, s = a ++ strip s ++ b.
Proof.
  unfold strip. destruct (lstrip_suffix s) as [a Ha].
  destruct (rstrip_prefix (lstrip s)) as [b Hb].
  exists a, b. by rewrite <- Hb.
Qed.

Lemma strip_idemp s : strip (strip s) = strip s.
Proof.
  unfold strip. destruct (lstrip s) as [|c t] eqn:E; [done|].
  apply lstrip_head in E.
  rewrite rstrip_cons_nonspace by done.
  rewrite lstrip_nonspace by done.
  rewrite <- rstrip_cons_nonspace by done. apply rstrip_idemp.
Qed.

Lemma lstrip_blank s : truthy (lstrip s) = negb (blank s).
Proof.
  induction s as [|c s IH]; simpl; [done|].
  destruct (isspace c); [done|]. done.
Qed.

(** [s.strip()] is empty exactly when [s] is blank. *)
Lemma truthy_strip s : truthy (strip s) = negb (blank s).
Proof.
  rewrite <- lstrip_blank. unfold strip.
  destruct (lstrip s) as [|c t] eqn:E; [done|].
  apply lstrip_head in E. by rewrite rstrip_cons_nonspace.
Qed.

Lemma contains_strip t s :
  contains t s = false → contains t (strip s) = false.
Proof.
  intros H. destruct (strip_infix s) as (a & b & Hs). rewrite Hs in H.
  apply contains_app_false in H as [_ H].
  by apply contains_app_false in H as [H _].
Qed.

End whitespace.

(** ** [remove_comments] is the pipeline of the four steps *)

Section pipeline.

Implicit Types (s t tok : str) (c : char) (p : profile) (sy : syntax).

Lemma foldl_loop_body pat acc lines :
  foldl (loop_body pat) acc lines =
  acc ++ (sub pat [] <$>
          List.filter (λ l, negb (blank (sub pat [] l)) || blank l) lines).
Proof.
  revert acc. induction lines as [|l lines IH]; intros acc; simpl.
  - by rewrite app_nil_r.
  - rewrite IH. unfold loop_body. rewrite !truthy_strip, negb_involutive.
    destruct (negb (blank (sub pat [] l)) || blank l); [|done].
    by rewrite <- app_assoc.
Qed.

Lemma line_step tok s :
  tok ≠ [] →
  join [nl] (foldl (loop_body (line_re tok)) [] (split nl s)) =
  remove_line_comments (Some tok) s.
Proof.
  intros Htok. rewrite foldl_loop_body. unfold remove_line_comments.
  cbn [app]. f_equal.
  induction (split_lines s) as [|l ls Hl _ IH]; [done|].
  unfold keeps, strip_line in *. cbn [List.filter].
  rewrite (sub_line tok l) by done.
  destruct (negb (blank (cut_at tok l)) || blank l); [|done].
  cbn [fmap list_fmap]. rewrite (sub_line tok l) by done. f_equal. apply IH.
Qed.

Lemma no_line_step s : remove_line_comments None s = s.
Proof.
  unfold remove_line_comments.
  replace (List.filter (keeps None) (split nl s)) with (split nl s).
  - replace (strip_line None <$> split nl s) with (split nl s);
      [apply join_split|].
    symmetry. induction (split nl s) as [|l ls IH]; [done|].
    cbn [fmap list_fmap]. by f_equal.
  - induction (split nl s) as [|l ls IH]; [done|]. simpl.
    unfold keeps at 1. cbn [strip_line]. rewrite orb_comm, orb_negb_r.
    by rewrite <- IH.
Qed.

Lemma block_step r delims s :
  Forall (λ d, d.1 ≠ []) delims →
  (∀ x, match_len r false x = block_span delims x) →
  sub r [] s = delete_block_comments delims s.
Proof.
  intros Hpos Hlen. unfold sub, delete_block_comments.
  rewrite sub_from_delete_spans.
  - by apply delete_spans_ext.
  - intros x. rewrite Hlen. by apply block_span_pos.
Qed.

Lemma no_block_step_nil delims : delete_block_comments delims [] = [].
Proof. done. Qed.

Lemma no_block_step s : delete_block_comments [] s = s.
Proof.
  unfold delete_block_comments.
  induction s as [|c s IH]; simpl; [done|]. by f_equal.
Qed.

(** What [remove_comments] computes for a language whose registry entry
    implements the tokens [sy]. *)
Lemma remove_comments_implements self L p sy s :
  patterns self !! L = Some p → implements p sy →
  remove_comments self s L = pipeline sy s.
Proof.
  intros HL ([Htok Hpos] & Hsingle & Hmulti). unfold remove_comments.
  rewrite HL. unfold pipeline, trim. rewrite sub_blank_run. do 2 f_equal.
  replace (match multi_line p with Some pat => sub pat [] s | None => s end)
    with (delete_block_comments (block_tokens sy) s).
  - rewrite Hsingle. destruct (line_token sy) as [tok|]; simpl.
    + apply line_step. by apply Htok.
    + by rewrite no_line_step.
  - destruct (multi_line p) as [r|].
    + symmetry. apply block_step; [|done].
      eapply Forall_impl; [exact Hpos|]. by intros d [? _].
    + rewrite Hmulti. apply no_block_step.
Qed.

Lemma known_language L p :
  patterns init !! L = Some p →
  (L, p) ∈ [ (u "Python", Profile (Some py_single) (Some py_multi));
             (c_family, Profile (Some c_single) (Some c_multi));
             (u "HTML/XML", Profile None (Some html_multi));
             (u "SQL", Profile (Some sql_single) (Some c_multi));
             (u "Lua", Profile (Some sql_single) (Some lua_multi)) ].
Proof. apply elem_of_list_to_map_2. Qed.

Lemma implements_line_block tok op cl :
  one_line tok → one_line op →
  implements (Profile (Some (line_re tok)) (Some (block_re op cl)))
    (Syntax (Some tok) [(op, cl)]).
Proof.
  intros Htok Hop. split_and!; [split| |]; simpl; try done.
  - by intros t [= <-].
  - by apply Forall_singleton.
  - intros x. apply match_len_block.
Qed.

Lemma implements_line_only tok :
  one_line tok →
  implements (Profile (Some (line_re tok)) None) (Syntax (Some tok) []).
Proof.
  intros Htok. split_and!; [split| |]; simpl; try done. by intros t [= <-].
Qed.

Lemma one_line_ascii (t : str) :
  bool_decide (t ≠ []) && forallb (λ c, negb (c =? nl)%N) t = true →
  one_line t.
Proof.
  intros [Hne Hnl]%andb_true_iff. split; [by apply bool_decide_eq_true in Hne|].
  intros Hin. rewrite forallb_forall in Hnl.
  apply list_elem_of_In, Hnl in Hin. by rewrite N.eqb_refl in Hin.
Qed.

(** Every entry of the registry implements its row of the table. *)
Lemma registry_implements L p :
  patterns init !! L = Some p →
  ∃ sy, comment_syntax !! L = Some sy ∧ implements p sy.
Proof.
  intros H%known_language.
  repeat (apply elem_of_cons in H as [[= -> ->]|H]);
    [| | | | |by apply elem_of_nil in H].
  - exists (Syntax (Some (u "#"))
      [(triple dquote, triple dquote); (triple squote, triple squote)]).
    split; [done|]. split_and!; [split| |].
    + intros t [= <-]. by apply one_line_ascii.
    + apply Forall_cons. split; [by apply one_line_ascii|].
      apply Forall_singleton. by apply one_line_ascii.
    + done.
    + intros x. cbn [multi_line block_tokens]. unfold py_multi.
      rewrite match_len_alt, block_span_cons.
      by rewrite (match_len_block (triple dquote) (triple dquote)),
        (match_len_block (triple squote) (triple squote)).
  - exists (Syntax (Some (u "//")) [(u "/*", u "*/")]). split; [done|].
    by apply (implements_line_block (u "//") (u "/*") (u "*/"));
      apply one_line_ascii.
  - exists (Syntax None [(u "<!--", u "-->")]). split; [done|].
    split_and!; [split| |].
    + done.
    + apply Forall_singleton. by apply one_line_ascii.
    + done.
    + intros x. apply (match_len_block (u "<!--") (u "-->")).
  - exists (Syntax (Some (u "--")) [(u "/*", u "*/")]). split; [done|].
    by apply (implements_line_block (u "--") (u "/*") (u "*/"));
      apply one_line_ascii.
  - exists (Syntax (Some (u "--")) [(u "--[[", u "]]")]). split; [done|].
    by apply (implements_line_block (u "--") (u "--[[") (u "]]"));
      apply one_line_ascii.
Qed.

End pipeline.

(** ** Texts without comment tokens *)

Section token_free.

Implicit Types (s t tok : str) (c : char) (ls : list str) (sy : syntax).

Local Arguments N.eqb : simpl never.

Lemma startswith_app_nl t a b :
  nl ∉ t → startswith t (a ++ nl :: b) = startswith t a.
Proof.
  revert a. induction t as [|x t IH]; intros a Hnl; [by destruct a|].
  apply not_elem_of_cons in Hnl as [Hx Hnl].
  destruct a as [|c a]; simpl.
  - by destruct (N.eqb_spec x nl).
  - by rewrite IH.
Qed.

Lemma contains_app_nl t a b :
  one_line t → contains t (a ++ nl :: b) = contains t a || contains t b.
Proof.
  intros [Hne Hnl]. induction a as [|c a IH].
  - pose proof (startswith_app_nl t [] b Hnl) as H.
    cbn [app contains] in *. rewrite H. by destruct t.
  - pose proof (startswith_app_nl t (c :: a) b Hnl) as H.
    cbn [app contains] in *. by rewrite IH, H, orb_assoc.
Qed.

Lemma contains_join t ls :
  one_line t → contains t (join [nl] ls) = existsb (contains t) ls.
Proof.
  intros Ht. induction ls as [|l ls IH]; [by apply contains_nil_false, Ht|].
  destruct ls as [|l' ls]; [cbn [join existsb]; by rewrite orb_false_r|].
  rewrite join_cons by done. rewrite contains_app_nl by done.
  by rewrite IH.
Qed.

Lemma contains_lines t s :
  one_line t → contains t s = existsb (contains t) (split nl s).
Proof. intros Ht. by rewrite <- contains_join, join_split. Qed.

Lemma startswith_collapse t s :
  nl ∉ t → startswith t (collapseBlankRuns s) = startswith t s.
Proof.
  revert t. induction s as [|c s IH]; intros t Hnl; [done|].
  rewrite collapse_cons. destruct t as [|x t]; [by destruct (_ && _)|].
  apply not_elem_of_cons in Hnl as [Hx Hnl].
  destruct (N.eqb_spec c nl) as [->|Hc]; cbn [andb].
  - destruct (Nat.leb_spec 2 (newlines s)) as [H2|H2].
    + rewrite IH by (by apply not_elem_of_cons). simpl.
      destruct (N.eqb_spec x nl); [done|].
      destruct s as [|c' s]; [done|]. revert H2. rewrite newlines_cons.
      destruct (N.eqb_spec c' nl) as [->|_]; [|lia]. intros _. simpl.
      by destruct (N.eqb_spec x nl).
    + simpl. by destruct (N.eqb_spec x nl).
  - simpl. by rewrite IH.
Qed.

Lemma contains_collapse t s :
  one_line t → contains t s = false →
  contains t (collapseBlankRuns s) = false.
Proof.
  intros [Hne Hnl]. induction s as [|c s IH]; [done|].
  intros [Hs Hc]%contains_cons_false. rewrite collapse_cons.
  destruct ((c =? nl)%N && (2 <=? newlines s)) eqn:E; [by apply IH|].
  cbn [contains]. rewrite IH, orb_false_r by done.
  rewrite <- Hs. destruct t as [|x t]; [done|]. simpl.
  apply not_elem_of_cons in Hnl as [_ Hnl]. by rewrite startswith_collapse.
Qed.

Lemma cut_at_prefix tok l : cut_at tok l `prefix_of` l.
Proof.
  induction l as [|c l IH]; simpl.
  - by destruct (startswith tok []).
  - destruct (startswith tok (c :: l)); [apply prefix_nil|].
    by apply prefix_cons.
Qed.

Lemma cut_at_id tok l : contains tok l = false → cut_at tok l = l.
Proof.
  induction l as [|c l IH].
  - simpl. by destruct (startswith tok []).
  - intros [Hs Hc]%contains_cons_false. cbn [cut_at].
    by rewrite Hs, IH.
Qed.

Lemma contains_prefix t a s :
  a `prefix_of` s → contains t s = false → contains t a = false.
Proof. intros [b ->] H. by apply contains_app_false in H as [? _]. Qed.

Lemma cut_at_free tok l : tok ≠ [] → contains tok (cut_at tok l) = false.
Proof.
  intros Hne. induction l as [|c l IH]; simpl.
  - destruct (startswith tok []); by apply contains_nil_false.
  - destruct (startswith tok (c :: l)) eqn:E; [by apply contains_nil_false|].
    cbn [contains]. rewrite IH, orb_false_r.
    apply not_true_is_false. intros H%startswith_prefix.
    apply not_true_iff_false in E. apply E, startswith_prefix.
    etrans; [exact H|]. apply prefix_cons, cut_at_prefix.
Qed.

Lemma block_span_no_open delims s :
  Forall (λ d, startswith d.1 s = false) delims → block_span delims s = None.
Proof.
  induction 1 as [|[op cl] delims Hop _ IH]; [done|]. simpl in *.
  by rewrite Hop.
Qed.

(** Step 1 leaves a text without opening tokens as it is. *)
Lemma delete_block_no_open delims s :
  Forall (λ d, contains d.1 s = false) delims →
  delete_block_comments delims s = s.
Proof.
  unfold delete_block_comments. induction s as [|c s IH]; [done|].
  intros H. cbn [delete_spans]. rewrite block_span_no_open.
  - rewrite IH; [done|]. eapply Forall_impl; [exact H|].
    intros d Hd. by apply contains_cons_false in Hd as [_ ?].
  - eapply Forall_impl; [exact H|].
    intros d Hd. by apply contains_cons_false in Hd as [? _].
Qed.

(** Step 2 leaves a text without the line token as it is. *)
Lemma remove_line_comments_id tok s :
  one_line tok → contains tok s = false →
  remove_line_comments (Some tok) s = s.
Proof.
  intros Htok Hs. unfold remove_line_comments.
  rewrite contains_lines in Hs by done.
  rewrite <- (join_split s) at 2. f_equal.
  induction (split nl s) as [|l ls IH]; [done|].
  simpl in Hs. apply orb_false_elim in Hs as [Hl Hls].
  cbn [List.filter]. unfold keeps at 1. cbn [strip_line].
  rewrite (cut_at_id tok l) by done.
  rewrite orb_comm, orb_negb_r. cbn [fmap list_fmap strip_line].
  rewrite (cut_at_id tok l) by done. f_equal. by apply IH.
Qed.

Lemma pipeline_token_free sy s :
  well_formed sy → token_free sy s →
  pipeline sy s = trim (collapseBlankRuns s).
Proof.
  intros [Hline _] [Hl Hb]. unfold pipeline.
  rewrite delete_block_no_open by done.
  destruct (line_token sy) as [tok|] eqn:E.
  - by rewrite remove_line_comments_id by auto.
  - by rewrite no_line_step.
Qed.

Lemma contains_remove_line_comments (otok : option str) t s :
  one_line t → contains t s = false →
  contains t (remove_line_comments otok s) = false.
Proof.
  intros Ht Hs. unfold remove_line_comments.
  rewrite contains_lines in Hs by done. rewrite contains_join by done.
  induction (split nl s) as [|l ls IH]; [done|].
  simpl in Hs. apply orb_false_elim in Hs as [Hl Hls].
  cbn [List.filter]. destruct (keeps otok l); [|by apply IH].
  cbn [fmap list_fmap existsb]. rewrite (IH Hls), orb_false_r.
  destruct otok as [tok|]; [|done]. simpl.
  by eapply contains_prefix; [apply cut_at_prefix|].
Qed.

Lemma line_token_removed tok s :
  one_line tok → contains tok (remove_line_comments (Some tok) s) = false.
Proof.
  intros Htok. unfold remove_line_comments. rewrite contains_join by done.
  induction (split nl s) as [|l ls IH]; [done|].
  cbn [List.filter]. destruct (keeps (Some tok) l); [|done].
  cbn [fmap list_fmap existsb]. rewrite IH, orb_false_r.
  apply cut_at_free, Htok.
Qed.

(** The result of the pipeline on a text without opening tokens of block
    comments holds no token that starts a comment. *)
Lemma pipeline_output_token_free sy s :
  well_formed sy →
  Forall (λ d, contains d.1 s = false) (block_tokens sy) →
  token_free sy (pipeline sy s).
Proof.
  intros [Hline Hblock] Hs. unfold pipeline.
  rewrite delete_block_no_open by done. unfold trim. split.
  - intros t Ht. apply contains_strip, contains_collapse; [by apply Hline|].
    rewrite Ht. apply line_token_removed. by apply Hline.
  - apply Forall_forall. intros d Hd.
    rewrite Forall_forall in Hblock, Hs.
    apply contains_strip, contains_collapse; [by apply Hblock|].
    apply contains_remove_line_comments; [by apply Hblock | by apply Hs].
Qed.

Lemma pipeline_output_trimmed sy s :
  strip (pipeline sy s) = pipeline sy s ∧
  contains [nl; nl; nl] (pipeline sy s) = false.
Proof.
  unfold pipeline, trim. split; [apply strip_idemp|].
  apply contains_strip, collapse_no_run.
Qed.

Lemma pipeline_idemp sy s :
  well_formed sy →
  Forall (λ d, contains d.1 s = false) (block_tokens sy) →
  pipeline sy (pipeline sy s) = pipeline sy s.
Proof.
  intros Hwf Hs.
  rewrite (pipeline_token_free sy (pipeline sy s))
    by auto using pipeline_output_token_free.
  destruct (pipeline_output_trimmed sy s) as [Hstrip Hrun].
  by rewrite collapse_fixed.
Qed.

End token_free.

(** ** The fuel of a repetition is never what stops it *)

Section fuel.

Implicit Types (s : str) (k : cont) (r : regex).

Lemma rep_loop_none r greedy fuel lo s :
  (∀ x, rmatch r x (λ _, None) = None) →
  rep_loop (rmatch r) greedy (λ _, None) fuel lo s = None.
Proof.
  intros Hr. revert lo s. induction fuel as [|fuel IH]; intros lo s.
  - simpl. by destruct lo, greedy.
  - rewrite rep_loop_succ. cbn zeta.
    rewrite (rmatch_ext r s _ (λ _, None)).
    + rewrite Hr. by destruct lo, greedy.
    + intros x. destruct (length x <? length s); [apply IH | done].
Qed.

(** A matcher that is given no way to succeed fails. *)
Lemma rmatch_none r s : rmatch r s (λ _, None) = None.
Proof.
  revert s.
  induction r as [| | | |r1 IH1 r2 IH2|r1 IH1 r2 IH2|r1 IH1|g lo r1 IH1];
    intros s; cbn [rmatch]; try done.
  - destruct s as [|x s]; [done|]. by destruct (x =? c)%N.
  - destruct s as [|x s]; [done|]. by destruct (x =? nl)%N.
  - destruct s as [|x [|y s]]; try done. by destruct (x =? nl)%N.
  - rewrite (rmatch_ext r1 s _ (λ _, None)); [apply IH1 | apply IH2].
  - by rewrite IH1, IH2.
  - by apply rep_loop_none.
Qed.

Lemma rep_loop_fuel r greedy k lo s fuel1 fuel2 :
  length s ≤ fuel1 → length s ≤ fuel2 →
  rep_loop (rmatch r) greedy k fuel1 lo s =
  rep_loop (rmatch r) greedy k fuel2 lo s.
Proof.
  assert (Hnil : ∀ fuel l,
    rep_loop (rmatch r) greedy k fuel l [] =
    match l with
    | S _ => None
    | 0 => k []
    end).
  { intros [|fuel] l.
    - simpl. destruct l, greedy; try done; by destruct (k []).
    - rewrite rep_loop_succ. cbn zeta.
      rewrite (rmatch_ext r [] _ (λ _, None)) by done.
      rewrite rmatch_none. destruct l, greedy; try done; by destruct (k []). }
  revert fuel2 lo s. induction fuel1 as [|fuel1 IH]; intros fuel2 lo s H1 H2.
  - destruct s; [|simpl in H1; lia]. by rewrite !Hnil.
  - destruct fuel2 as [|fuel2].
    + destruct s; [|simpl in H2; lia]. by rewrite !Hnil.
    + rewrite !rep_loop_succ. cbn zeta.
      rewrite (rmatch_ext r s _
        (λ s', if length s' <? length s
               then rep_loop (rmatch r) greedy k fuel2 (pred lo) s'
               else None)); [done|].
      intros x. destruct (Nat.ltb_spec (length x) (length s)); [|done].
      apply IH; lia.
Qed.

(** With any fuel from the length of the text on, a repetition gives what
    [rmatch] gives. *)
Lemma rmatch_rep_fuel r greedy lo s k fuel :
  length s ≤ fuel →
  rep_loop (rmatch r) greedy k fuel lo s = rmatch (Rep greedy lo r) s k.
Proof. intros H. cbn [rmatch]. by apply rep_loop_fuel. Qed.

End fuel.

(** ** The claims *)

Section helpers.

Implicit Types (s t tok : str) (c : char) (sy : syntax).

Lemma consumes_one r s k :
  r ∈ [Dot; any_char; Lit nl] →
  rmatch r s k =
  rmatch r s (λ s', if length s' <? length s then k s' else None).
Proof.
  intros Hr. repeat (apply elem_of_cons in Hr as [->|Hr]);
    [| | |by apply elem_of_nil in Hr]; destruct s as [|x s]; try done.
  - cbn [rmatch]. by rewrite shorter_tail.
  - by rewrite !rmatch_any_char, shorter_tail.
  - cbn [rmatch]. by rewrite shorter_tail.
Qed.

Lemma token_free_of_bool sy s :
  has_line_token sy s = false → has_block_token sy s = false →
  token_free sy s.
Proof.
  unfold has_line_token, has_block_token. intros Hl Hb. split.
  - intros t Ht. by rewrite Ht in Hl.
  - induction (block_tokens sy) as [|d ds IH]; [done|].
    simpl in Hb. apply orb_false_elim in Hb as [Hd Hds].
    apply orb_false_elim in Hd as [Hop _]. by constructor; [|apply IH].
Qed.

Lemma known_syntax L sy :
  comment_syntax !! L = Some sy →
  (L, sy) ∈ [ (u "Python",
               Syntax (Some (u "#"))
                 [(triple dquote, triple dquote);
                  (triple squote, triple squote)]);
              (c_family, Syntax (Some (u "//")) [(u "/*", u "*/")]);
              (u "HTML/XML", Syntax None [(u "<!--", u "-->")]);
              (u "SQL", Syntax (Some (u "--")) [(u "/*", u "*/")]);
              (u "Lua", Syntax (Some (u "--")) [(u "--[[", u "]]")]) ].
Proof. apply elem_of_list_to_map_2. Qed.

(** No line token starts with a whitespace character. *)
Lemma line_token_head L sy tok :
  comment_syntax !! L = Some sy → line_token sy = Some tok →
  ∃ c t, tok = c :: t ∧ isspace c = false.
Proof.
  intros H%known_syntax Htok.
  repeat (apply elem_of_cons in H as [[= -> ->]|H]);
    [| | | | |by apply elem_of_nil in H]; simplify_eq/=; by eexists _, _.
Qed.

Lemma startswith_space c t w s :
  isspace c = false → isspace w = true → startswith (c :: t) (w :: s) = false.
Proof.
  intros Hc Hw. simpl. destruct (N.eqb_spec c w) as [->|_]; [|done].
  congruence.
Qed.

Lemma blank_no_token c t l :
  isspace c = false → blank l = true → contains (c :: t) l = false.
Proof.
  intros Hc. induction l as [|w l IH]; [done|].
  intros [Hw Hl]%andb_true_iff. cbn [contains].
  by rewrite startswith_space, IH.
Qed.

Lemma cut_at_after_blank c t ws rest :
  isspace c = false → blank ws = true →
  cut_at (c :: t) (ws ++ (c :: t) ++ rest) = ws.
Proof.
  intros Hc. induction ws as [|w ws IH].
  - intros _. cbn [app cut_at]. change (c :: t ++ rest) with ((c :: t) ++ rest).
    by rewrite startswith_app.
  - intros [Hw Hws]%andb_true_iff.
    change ((w :: ws) ++ (c :: t) ++ rest) with (w :: ws ++ (c :: t) ++ rest).
    cbn [cut_at]. rewrite startswith_space by done. by rewrite IH.
Qed.

Lemma single_line_known L p pat :
  patterns init !! L = Some p → single_line p = Some pat →
  ∃ sy tok, comment_syntax !! L = Some sy ∧ line_token sy = Some tok ∧
            one_line tok ∧ pat = line_re tok.
Proof.
  intros (sy & Hsy & [Hline _] & Hsingle & _)%registry_implements Hpat.
  rewrite Hpat in Hsingle. destruct (line_token sy) as [tok|] eqn:E; [|done].
  injection Hsingle as ->. exists sy, tok. auto.
Qed.

Lemma rfind_from_lower c s i last :
  (last ≤ i)%Z → (last ≤ rfind_from c s i last)%Z.
Proof.
  revert i last. induction s as [|x s IH]; intros i last Hi; simpl; [lia|].
  destruct (x =? c)%N.
  - etrans; [|apply IH]; lia.
  - apply IH. lia.
Qed.

Lemma rfind_from_absent c s i last : c ∉ s → rfind_from c s i last = last.
Proof.
  revert i. induction s as [|x s IH]; intros i Hc; simpl; [done|].
  apply not_elem_of_cons in Hc as [Hx Hc].
  destruct (N.eqb_spec x c) as [->|_]; [done|]. by apply IH.
Qed.

Lemma rfind_lower c s : (-1 ≤ rfind c s)%Z.
Proof. apply rfind_from_lower. lia. Qed.

Lemma rfind_absent c s : c ∉ s → rfind c s = (-1)%Z.
Proof. apply rfind_from_absent. Qed.

(** A name without a dot has no extension. *)
Lemma splitext_no_dot os p : 46%N ∉ p → splitext os p = (p, []).
Proof.
  intros Hdot. unfold splitext, _splitext. cbn zeta.
  rewrite !(rfind_absent 46%N p) by done.
  pose proof (rfind_lower (sep os) p) as Hsep.
  destruct (altsep os) as [a|].
  - by rewrite (proj2 (Z.ltb_ge _ _)) by lia.
  - by rewrite (proj2 (Z.ltb_ge _ _)) by lia.
Qed.

Lemma absent_check c s : forallb (λ x, negb (x =? c)%N) s = true → c ∉ s.
Proof.
  intros Hall Hin. rewrite forallb_forall in Hall.
  apply list_elem_of_In, Hall in Hin. by rewrite N.eqb_refl in Hin.
Qed.

End helpers.

Section claims.

Implicit Types (s t tok : str) (c : char) (p : profile) (sy : syntax).

(** C1: for every language identifier known to the registry,
    [remove_comments] is the four steps applied in order: every shortest
    block comment is deleted, the lines are stripped of their single-line
    comment and filtered, every run of three or more newlines becomes two
    newlines, and the whitespace at both ends is stripped. *)
Theorem C1_remove_comments_is_pipeline L p s :
  patterns init !! L = Some p →
  ∃ sy, comment_syntax !! L = Some sy ∧
    remove_comments init s L =
    trim (collapseBlankRuns
            (remove_line_comments (line_token sy)
               (delete_block_comments (block_tokens sy) s))).
Proof.
  intros HL. destruct (registry_implements L p HL) as (sy & Hsy & Himpl).
  exists sy. split; [done|]. by apply (remove_comments_implements init L p).
Qed.

Lemma C1_witness :
  patterns init !! c_family = Some (Profile (Some c_single) (Some c_multi)) ∧
  ∃ sy, comment_syntax !! c_family = Some sy ∧
    remove_comments init (u "a /* b */ c // d") c_family =
    trim (collapseBlankRuns
            (remove_line_comments (line_token sy)
               (delete_block_comments (block_tokens sy)
                  (u "a /* b */ c // d")))).
Proof.
  split; [reflexivity|].
  apply (C1_remove_comments_is_pipeline c_family
           (Profile (Some c_single) (Some c_multi))).
  reflexivity.
Defined.

(** C2: for an identifier that is not in the registry, [remove_comments]
    returns the text exactly as it was given. *)
Theorem C2_unknown_language_unchanged self s U :
  patterns self !! U = None → remove_comments self s U = s.
Proof. intros HU. unfold remove_comments. by rewrite HU. Qed.

Lemma C2_witness :
  patterns init !! u "Fortran" = None ∧
  remove_comments init ([nl; nl; nl] ++ u " ! x ") (u "Fortran") =
  [nl; nl; nl] ++ u " ! x ".
Proof.
  split; [reflexivity|].
  apply (C2_unknown_language_unchanged init). reflexivity.
Defined.

(** C3: in the single-line step of a language with a single-line pattern,
    the result lines are the stripped forms, in their order, of exactly the
    lines whose stripped form is not blank or which were blank themselves,
    joined with newlines; so a blank line stays as it is, and a line that is
    not blank and holds nothing but a comment is dropped. *)
Theorem C3_line_step L p pat text :
  patterns init !! L = Some p → single_line p = Some pat →
  let cleaned := sub pat [] in
  let kept := λ line, negb (blank (cleaned line)) || blank line in
  join [nl] (foldl (loop_body pat) [] (split nl text)) =
    join [nl] (cleaned <$> List.filter kept (split nl text)) ∧
  (∀ line, line ∈ split nl text → blank line = true →
     kept line = true ∧ cleaned line = line) ∧
  ∃ sy tok, comment_syntax !! L = Some sy ∧ line_token sy = Some tok ∧
    ∀ ws rest, blank ws = true → nl ∉ ws ++ tok ++ rest →
      blank (ws ++ tok ++ rest) = false ∧ kept (ws ++ tok ++ rest) = false.
Proof.
  intros HL Hpat cleaned kept.
  destruct (single_line_known L p pat HL Hpat)
    as (sy & tok & Hsy & Htok & Hone & ->).
  destruct (line_token_head L sy tok Hsy Htok) as (c & t & -> & Hc).
  split_and!.
  - by rewrite foldl_loop_body.
  - intros line Hin Hblank. unfold kept, cleaned.
    rewrite Hblank, orb_true_r. split; [done|].
    rewrite sub_line; [|apply Hone|].
    + by apply cut_at_id, blank_no_token.
    + pose proof (split_lines text) as Hlines.
      rewrite Forall_forall in Hlines. by apply Hlines.
  - exists sy, (c :: t). split_and!; [done..|].
    intros ws rest Hws Hnl. unfold kept, cleaned.
    rewrite sub_line by (done || apply Hone).
    rewrite cut_at_after_blank by done. rewrite Hws.
    assert (blank (ws ++ (c :: t) ++ rest) = false) as ->; [|done].
    unfold blank. rewrite forallb_app. simpl. rewrite Hc. simpl.
    apply andb_false_r.
Qed.

Lemma C3_witness :
  patterns init !! u "Python" = Some (Profile (Some py_single) (Some py_multi)) ∧
  single_line (Profile (Some py_single) (Some py_multi)) = Some py_single ∧
  let text := u "a = 1" ++ [nl] ++ u "   " ++ [nl] ++ u "  # only" in
  let cleaned := sub py_single [] in
  let kept := λ line, negb (blank (cleaned line)) || blank line in
  join [nl] (foldl (loop_body py_single) [] (split nl text)) =
    join [nl] (cleaned <$> List.filter kept (split nl text)) ∧
  (∀ line, line ∈ split nl text → blank line = true →
     kept line = true ∧ cleaned line = line) ∧
  ∃ sy tok, comment_syntax !! u "Python" = Some sy ∧
    line_token sy = Some tok ∧
    ∀ ws rest, blank ws = true → nl ∉ ws ++ tok ++ rest →
      blank (ws ++ tok ++ rest) = false ∧ kept (ws ++ tok ++ rest) = false.
Proof.
  split; [reflexivity|]. split; [reflexivity|].
  apply (C3_line_step (u "Python") (Profile (Some py_single) (Some py_multi)));
    reflexivity.
Defined.

(** C4, as the specification states it: the Python scenario would give a
    text without spaces after [x = 1].  It does not. *)
Lemma C4_counterexample :
  remove_comments init scenario_python (u "Python") ≠
  u "x = 1" ++ [nl; nl] ++ u "def f():" ++ [nl] ++ u "    pass".
Proof. vm_compute. discriminate. Qed.

(** C4, amended: the Python scenario gives [x = 1] followed by the two
    spaces that stood before the comment, a blank line, [def f():] and
    [    pass]; only the whitespace at the ends of the whole text is
    stripped. *)
Theorem C4_scenario_python :
  remove_comments init scenario_python (u "Python") =
  u "x = 1  " ++ [nl; nl] ++ u "def f():" ++ [nl] ++ u "    pass".
Proof. vm_compute. reflexivity. Qed.

(** C5: for a known language and a text in which none of its comment tokens
    occurs, [remove_comments] collapses the blank runs and trims, and does
    nothing else. *)
Theorem C5_no_comment_tokens L p sy s :
  patterns init !! L = Some p → comment_syntax !! L = Some sy →
  has_line_token sy s = false → has_block_token sy s = false →
  remove_comments init s L = trim (collapseBlankRuns s).
Proof.
  intros HL Hsy Hline Hblock.
  destruct (registry_implements L p HL) as (sy' & Hsy' & Himpl).
  assert (sy' = sy) as -> by congruence.
  rewrite (remove_comments_implements init L p sy) by done.
  apply pipeline_token_free; [apply Himpl | by apply token_free_of_bool].
Qed.

Lemma C5_witness :
  let s := u "  SELECT 1;" ++ [nl; nl; nl; nl] ++ u "SELECT 2 - 1; " in
  let sy := Syntax (Some (u "--")) [(u "/*", u "*/")] in
  patterns init !! u "SQL" = Some (Profile (Some sql_single) (Some c_multi)) ∧
  comment_syntax !! u "SQL" = Some sy ∧
  has_line_token sy s = false ∧ has_block_token sy s = false ∧
  remove_comments init s (u "SQL") = trim (collapseBlankRuns s).
Proof.
  cbv zeta. split_and!; [reflexivity..|].
  apply (C5_no_comment_tokens (u "SQL")
           (Profile (Some sql_single) (Some c_multi))
           (Syntax (Some (u "--")) [(u "/*", u "*/")])); reflexivity.
Defined.

(** C6: removing comments twice gives what removing them once gives, for a
    language whose registry entry has a single-line pattern only, and, for
    the languages of the registry, on every text in which no block-comment
    token of the language occurs. *)
Theorem C6_idempotent :
  (∀ self L tok s,
     patterns self !! L = Some (Profile (Some (line_re tok)) None) →
     one_line tok →
     remove_comments self (remove_comments self s L) L =
     remove_comments self s L) ∧
  (∀ L p sy s,
     patterns init !! L = Some p → comment_syntax !! L = Some sy →
     has_block_token sy s = false →
     remove_comments init (remove_comments init s L) L =
     remove_comments init s L).
Proof.
  split.
  - intros self L tok s HL Htok.
    pose proof (implements_line_only tok Htok) as Himpl.
    rewrite !(remove_comments_implements self L _ _ _ HL Himpl).
    apply pipeline_idemp; [apply Himpl | done].
  - intros L p sy s HL Hsy Hblock.
    destruct (registry_implements L p HL) as (sy' & Hsy' & Himpl).
    assert (sy' = sy) as -> by congruence.
    rewrite !(remove_comments_implements init L p sy) by done.
    apply pipeline_idemp; [apply Himpl|].
    unfold has_block_token in Hblock.
    induction (block_tokens sy) as [|d ds IH]; [done|].
    simpl in Hblock. apply orb_false_elim in Hblock as [Hd Hds].
    apply orb_false_elim in Hd as [Hop _]. by constructor; [|apply IH].
Qed.

Lemma C6_witness :
  let s1 := u "ls  # list" ++ [nl; nl; nl; nl] ++ u "# done" ++ [nl] in
  let s2 := u "x = 1  # set x" ++ [nl; nl; nl] ++ u " # y" ++ [nl] ++ u "z" in
  let sy := Syntax (Some (u "#"))
              [(triple dquote, triple dquote); (triple squote, triple squote)] in
  (patterns shell_only !! u "Shell" =
     Some (Profile (Some (line_re (u "#"))) None) ∧
   one_line (u "#") ∧
   remove_comments shell_only (remove_comments shell_only s1 (u "Shell"))
     (u "Shell") = remove_comments shell_only s1 (u "Shell")) ∧
  (patterns init !! u "Python" =
     Some (Profile (Some py_single) (Some py_multi)) ∧
   comment_syntax !! u "Python" = Some sy ∧
   has_block_token sy s2 = false ∧
   remove_comments init (remove_comments init s2 (u "Python")) (u "Python") =
   remove_comments init s2 (u "Python")).
Proof.
  cbv zeta. split.
  - assert (Hone : one_line (u "#")) by (apply one_line_ascii; reflexivity).
    split_and!; [reflexivity | exact Hone |].
    apply (proj1 C6_idempotent shell_only (u "Shell") (u "#"));
      [reflexivity | exact Hone].
  - split_and!; [reflexivity..|].
    apply (proj2 C6_idempotent (u "Python")
             (Profile (Some py_single) (Some py_multi))
             (Syntax (Some (u "#"))
                [(triple dquote, triple dquote);
                 (triple squote, triple squote)])); reflexivity.
Defined.

(** C7: [get_language_from_filename] gives, for every file name, the
    language that the extension map holds for the lower-cased extension, and
    ["Python"] when the map has no entry for it; a name without a dot has no
    extension and gives ["Python"]; in particular ["foo.PY"],
    ["foo.unknownext"] and ["noext"] give ["Python"], on either flavour of
    paths. *)
Theorem C7_language_from_filename :
  (∀ os filename,
     get_language_from_filename os init filename =
     match extension_map init !! lower (splitext os filename).2 with
     | Some language => language
     | None => u "Python"
     end) ∧
  (∀ os filename,
     46%N ∉ filename →
     get_language_from_filename os init filename = u "Python") ∧
  (∀ os, os ∈ [posixpath; ntpath] →
     get_language_from_filename os init (u "foo.PY") = u "Python" ∧
     get_language_from_filename os init (u "foo.unknownext") = u "Python" ∧
     get_language_from_filename os init (u "noext") = u "Python" ∧
     get_language_from_filename os init (u "main.RS") = c_family).
Proof.
  split_and!.
  - intros os filename. unfold get_language_from_filename. cbn zeta.
    by destruct (extension_map init !! lower (splitext os filename).2).
  - intros os filename Hdot. unfold get_language_from_filename.
    by rewrite splitext_no_dot.
  - intros os Hos. repeat (apply elem_of_cons in Hos as [->|Hos]);
      [| |by apply elem_of_nil in Hos]; by vm_compute.
Qed.

Lemma C7_witness :
  (46%N ∉ u "Makefile") ∧
  get_language_from_filename posixpath init (u "Makefile") = u "Python" ∧
  get_language_from_filename ntpath init (u "foo.PY") = u "Python".
Proof.
  assert (Hdot : 46%N ∉ u "Makefile") by (apply absent_check; reflexivity).
  split_and!; [exact Hdot | |].
  - apply (proj1 (proj2 C7_language_from_filename) posixpath). exact Hdot.
  - apply (proj2 (proj2 C7_language_from_filename) ntpath).
    apply list_elem_of_further, list_elem_of_here.
Defined.

(** C8, as the specification states it: a token that follows a backslash
    would not start a comment.  The pattern of the registry does not look at
    what precedes the token. *)
Lemma C8_counterexample :
  sub py_single [] (u "a" ++ [backslash] ++ u "#b") ≠
  cut_at_unescaped backslash (u "#") false (u "a" ++ [backslash] ++ u "#b").
Proof. vm_compute. discriminate. Qed.

(** C8, amended: for every language with a single-line pattern and every
    line, the single-line step strips everything from the first occurrence
    of the line-comment token, whatever precedes it, to the end of the line. *)
Theorem C8_first_occurrence L p pat line :
  patterns init !! L = Some p → single_line p = Some pat → nl ∉ line →
  ∃ sy tok, comment_syntax !! L = Some sy ∧ line_token sy = Some tok ∧
    sub pat [] line = cut_at tok line.
Proof.
  intros HL Hpat Hnl.
  destruct (single_line_known L p pat HL Hpat)
    as (sy & tok & Hsy & Htok & Hone & ->).
  exists sy, tok. split_and!; [done..|]. apply sub_line; [apply Hone | done].
Qed.

Lemma C8_witness :
  let line := u "a" ++ [backslash] ++ u "--b -- c" in
  patterns init !! u "Lua" = Some (Profile (Some sql_single) (Some lua_multi)) ∧
  (nl ∉ line) ∧
  (∃ sy tok, comment_syntax !! u "Lua" = Some sy ∧ line_token sy = Some tok ∧
     sub sql_single [] line = cut_at tok line) ∧
  sub sql_single [] line = u "a" ++ [backslash].
Proof.
  cbv zeta.
  assert (Hnl : nl ∉ u "a" ++ [backslash] ++ u "--b -- c")
    by (apply absent_check; reflexivity).
  split_and!; [reflexivity | exact Hnl | | reflexivity].
  apply (C8_first_occurrence (u "Lua")
           (Profile (Some sql_single) (Some lua_multi)) sql_single);
    [reflexivity | reflexivity | exact Hnl].
Defined.

(** C9: for a language without a single-line pattern the lines are not
    filtered: the result is the text without its block comments, with the
    blank runs collapsed, trimmed.  A line that held a block comment and
    nothing else stays, as an empty line, where a language with a
    single-line pattern drops a line that held nothing but such a comment. *)
Theorem C9_no_line_filter L p s :
  patterns init !! L = Some p → single_line p = None →
  (∃ sy, comment_syntax !! L = Some sy ∧
     remove_comments init s L =
     trim (collapseBlankRuns (delete_block_comments (block_tokens sy) s))) ∧
  remove_comments init (u "a" ++ [nl] ++ u "<!-- c -->" ++ [nl] ++ u "b")
    (u "HTML/XML") = u "a" ++ [nl; nl] ++ u "b" ∧
  remove_comments init (u "a" ++ [nl] ++ u "// c" ++ [nl] ++ u "b") c_family =
    u "a" ++ [nl] ++ u "b".
Proof.
  intros HL Hsingle. split_and!; [|by vm_compute..].
  destruct (registry_implements L p HL) as (sy & Hsy & Himpl).
  exists sy. split; [done|].
  rewrite (remove_comments_implements init L p sy) by done.
  unfold pipeline. destruct Himpl as (_ & Hline & _).
  rewrite Hsingle in Hline. destruct (line_token sy); [done|].
  by rewrite no_line_step.
Qed.

Lemma C9_witness :
  let p := Profile None (Some html_multi) in
  let s := u "<p>" ++ [nl] ++ u "<!-- x" ++ [nl] ++ u "y -->" ++ [nl] ++ u "</p>" in
  patterns init !! u "HTML/XML" = Some p ∧ single_line p = None ∧
  (∃ sy, comment_syntax !! u "HTML/XML" = Some sy ∧
     remove_comments init s (u "HTML/XML") =
     trim (collapseBlankRuns (delete_block_comments (block_tokens sy) s))) ∧
  remove_comments init s (u "HTML/XML") = u "<p>" ++ [nl; nl] ++ u "</p>".
Proof.
  cbv zeta. split_and!; [reflexivity | reflexivity | | reflexivity].
  apply (C9_no_line_filter (u "HTML/XML") (Profile None (Some html_multi)));
    reflexivity.
Defined.

(** C10: for every text and every known language, the result of
    [remove_comments] has no whitespace at its ends (stripping it again
    changes nothing) and holds no run of three or more newlines; the empty
    text gives the empty text. *)
Theorem C10_output_shape L p s :
  patterns init !! L = Some p →
  strip (remove_comments init s L) = remove_comments init s L ∧
  contains [nl; nl; nl] (remove_comments init s L) = false ∧
  remove_comments init [] L = [].
Proof.
  intros HL. destruct (registry_implements L p HL) as (sy & Hsy & Himpl).
  rewrite !(remove_comments_implements init L p sy) by done.
  destruct (pipeline_output_trimmed sy s) as [Hstrip Hrun].
  split_and!; [done..|].
  unfold pipeline, remove_line_comments. rewrite no_block_step_nil.
  cbn [split List.filter]. unfold keeps. cbn [blank forallb].
  rewrite orb_true_r. destruct (line_token sy) as [tok|]; [|done].
  simpl. by destruct (startswith tok []).
Qed.

Lemma C10_witness :
  let s := [nl] ++ u "  x " ++ [nl; nl; nl; nl; nl] ++ u "y  # c" ++ [nl] in
  patterns init !! u "Python" =
    Some (Profile (Some py_single) (Some py_multi)) ∧
  (strip (remove_comments init s (u "Python")) =
     remove_comments init s (u "Python") ∧
   contains [nl; nl; nl] (remove_comments init s (u "Python")) = false ∧
   remove_comments init [] (u "Python") = []) ∧
  remove_comments init s (u "Python") = u "x " ++ [nl; nl] ++ u "y".
Proof.
  cbv zeta. split; [reflexivity|]. split; [|reflexivity].
  apply (C10_output_shape (u "Python")
           (Profile (Some py_single) (Some py_multi))). reflexivity.
Defined.

End claims.

(** ** Further properties of [remove_comments] *)

Section only_deletes.

Implicit Types (s t : str) (c : char) (ls : list str).

(** Deleting the matches of any pattern leaves a subsequence of the text. *)
Lemma sub_from_sublist r skip s : sub_from r [] skip s `sublist_of` s.
Proof.
  revert skip. induction s as [|c s IH]; intros [|n]; cbn [sub_from].
  - by destruct (match_len r false []).
  - done.
  - destruct (match_len r false (c :: s)) as [[|m]|]; cbn [app].
    + destruct (match_len r true (c :: s)) as [[|m]|];
        (by apply sublist_cons) || (by apply sublist_skip).
    + by apply sublist_cons.
    + by apply sublist_skip.
  - by apply sublist_cons.
Qed.

Lemma collapse_sublist s : collapseBlankRuns s `sublist_of` s.
Proof.
  induction s as [|c s IH]; [done|]. cbn [collapseBlankRuns].
  destruct (_ && _); [by apply sublist_cons | by apply sublist_skip].
Qed.

Lemma strip_sublist s : strip s `sublist_of` s.
Proof.
  destruct (strip_infix s) as (a & b & Hs). rewrite Hs at 2.
  apply sublist_inserts_l, sublist_inserts_r. done.
Qed.

Lemma join_filter_sublist (f : str → str) (keep : str → bool) ls :
  (∀ l, f l `sublist_of` l) →
  join [nl] (f <$> List.filter keep ls) `sublist_of` join [nl] ls.
Proof.
  intros Hf. induction ls as [|l ls IH]; [done|].
  cbn [List.filter]. destruct ls as [|l' ls].
  - destruct (keep l); [apply Hf | apply sublist_nil_l].
  - rewrite (join_cons l (l' :: ls)) by done.
    destruct (keep l).
    + cbn [fmap list_fmap].
      destruct (f <$> List.filter keep (l' :: ls)) as [|x xs] eqn:E.
      * apply sublist_inserts_r, Hf.
      * rewrite (join_cons (f l) (x :: xs)) by done.
        apply sublist_app; [apply Hf|]. by apply sublist_skip.
    + apply sublist_inserts_l. by apply sublist_cons.
Qed.

Lemma line_step_sublist pat s :
  join [nl] (foldl (loop_body pat) [] (split nl s)) `sublist_of` s.
Proof.
  rewrite foldl_loop_body. cbn [app]. rewrite <- (join_split s) at 2.
  apply join_filter_sublist. intros l. apply sub_from_sublist.
Qed.

End only_deletes.

Section more_of_remove_comments.

Implicit Types (s t tok : str) (c : char) (p : profile) (sy : syntax).

(** X1: whatever the registry holds, [remove_comments] only deletes
    characters: the result is a subsequence of the text it was given. *)
Theorem X1_only_deletes self s L : remove_comments self s L `sublist_of` s.
Proof.
  unfold remove_comments. destruct (patterns self !! L) as [p|]; [|done].
  etrans; [apply strip_sublist|]. rewrite sub_blank_run.
  etrans; [apply collapse_sublist|].
  assert (Hblock : match multi_line p with
                   | Some pat => sub pat [] s
                   | None => s
                   end `sublist_of` s).
  { destruct (multi_line p); [apply sub_from_sublist | done]. }
  destruct (single_line p) as [pat|]; [|done].
  etrans; [apply line_step_sublist | done].
Qed.

(** X2: for a known language with a single-line pattern, the token that
    starts a single-line comment does not occur in the result, whatever the
    text was (also where the token stood inside a string literal). *)
Theorem X2_no_line_token_left L p sy tok s :
  patterns init !! L = Some p → comment_syntax !! L = Some sy →
  line_token sy = Some tok →
  contains tok (remove_comments init s L) = false.
Proof.
  intros HL Hsy Htok.
  destruct (registry_implements L p HL) as (sy' & Hsy' & Himpl).
  assert (sy' = sy) as -> by congruence.
  rewrite (remove_comments_implements init L p sy) by done.
  destruct Himpl as ([Hline _] & _). specialize (Hline tok Htok).
  unfold pipeline, trim. apply contains_strip, contains_collapse; [done|].
  rewrite Htok. by apply line_token_removed.
Qed.

Lemma X2_witness :
  let s := u "s = 'a # b'  # c" ++ [nl] ++ u "t = 2" in
  patterns init !! u "Python" =
    Some (Profile (Some py_single) (Some py_multi)) ∧
  comment_syntax !! u "Python" =
    Some (Syntax (Some (u "#"))
            [(triple dquote, triple dquote); (triple squote, triple squote)]) ∧
  contains (u "#") (remove_comments init s (u "Python")) = false ∧
  remove_comments init s (u "Python") = u "s = 'a " ++ [nl] ++ u "t = 2".
Proof.
  cbv zeta. split_and!; [reflexivity | reflexivity | | reflexivity].
  apply (X2_no_line_token_left (u "Python")
           (Profile (Some py_single) (Some py_multi))
           (Syntax (Some (u "#"))
              [(triple dquote, triple dquote);
               (triple squote, triple squote)])); reflexivity.
Defined.

Lemma blank_sublist s t : s `sublist_of` t → blank t = true → blank s = true.
Proof.
  induction 1 as [|x s t _ IH|x s t _ IH]; simpl; [done| |].
  - intros [Hx Ht]%andb_true_iff. by rewrite Hx, IH.
  - intros [_ Ht]%andb_true_iff. by apply IH.
Qed.

Lemma strip_blank s : blank s = true → strip s = [].
Proof.
  intros Hs. pose proof (truthy_strip s) as H. rewrite Hs in H.
  by destruct (strip s).
Qed.

(** No token that opens a block comment starts with a whitespace
    character. *)
Lemma block_token_head L sy :
  comment_syntax !! L = Some sy →
  Forall (λ d, ∃ c t, d.1 = c :: t ∧ isspace c = false) (block_tokens sy).
Proof.
  intros H%known_syntax.
  repeat (apply elem_of_cons in H as [[= -> ->]|H]);
    [| | | | |by apply elem_of_nil in H]; cbn [block_tokens];
    repeat (apply Forall_cons; split; [by eexists _, _|]); apply Forall_nil_2.
Qed.

(** X3: for a known language, a text that is empty or all whitespace gives
    the empty text. *)
Theorem X3_blank_gives_empty L p s :
  patterns init !! L = Some p → blank s = true → remove_comments init s L = [].
Proof.
  intros HL Hs.
  destruct (registry_implements L p HL) as (sy & Hsy & Himpl).
  rewrite (remove_comments_implements init L p sy) by done.
  rewrite pipeline_token_free; [|apply Himpl|].
  - apply strip_blank. eapply blank_sublist; [apply collapse_sublist | done].
  - split.
    + intros tok Htok.
      destruct (line_token_head L sy tok Hsy Htok) as (c & t & -> & Hc).
      by apply blank_no_token.
    + eapply Forall_impl; [apply (block_token_head L sy Hsy)|].
      intros [op cl] (c & t & Hop & Hc). simpl in *. rewrite Hop.
      by apply blank_no_token.
Qed.

Lemma X3_witness :
  let s := u "  " ++ [nl; 9%N; nl; 13%N; nl] ++ u " " in
  patterns init !! u "Lua" = Some (Profile (Some sql_single) (Some lua_multi)) ∧
  blank s = true ∧ remove_comments init s (u "Lua") = [].
Proof.
  cbv zeta. split_and!; [reflexivity | reflexivity |].
  apply (X3_blank_gives_empty (u "Lua")
           (Profile (Some sql_single) (Some lua_multi))); reflexivity.
Defined.

Lemma block_span_no_close delims s :
  Forall (λ d, contains d.2 s = false) delims → block_span delims s = None.
Proof.
  induction 1 as [|[op cl] delims Hcl _ IH]; [done|]. simpl in *.
  destruct (startswith op s) eqn:Hop; [|done].
  rewrite (startswith_drop op s Hop) in Hcl.
  apply contains_app_false in Hcl as [_ Hcl].
  apply find_none_contains in Hcl. by rewrite Hcl.
Qed.

Lemma delete_block_no_close delims s :
  Forall (λ d, contains d.2 s = false) delims →
  delete_block_comments delims s = s.
Proof.
  unfold delete_block_comments. induction s as [|c s IH]; [done|].
  intros H. cbn [delete_spans]. rewrite block_span_no_close by done.
  rewrite IH; [done|]. eapply Forall_impl; [exact H|].
  intros d Hd. by apply contains_cons_false in Hd as [_ ?].
Qed.

(** X4: a block comment that is opened and never closed is not a block
    comment: when no closing token of the language occurs in the text, the
    block step deletes nothing, and the result is what the line step, the
    collapsing of blank runs and the trimming give. *)
Theorem X4_unterminated_block L p sy s :
  patterns init !! L = Some p → comment_syntax !! L = Some sy →
  Forall (λ d, contains d.2 s = false) (block_tokens sy) →
  remove_comments init s L =
  trim (collapseBlankRuns (remove_line_comments (line_token sy) s)).
Proof.
  intros HL Hsy Hclose.
  destruct (registry_implements L p HL) as (sy' & Hsy' & Himpl).
  assert (sy' = sy) as -> by congruence.
  rewrite (remove_comments_implements init L p sy) by done.
  unfold pipeline. by rewrite delete_block_no_close.
Qed.

Lemma X4_witness :
  let s := u "a = 1; /* never closed" ++ [nl] ++ u "b = 2; // c" in
  let sy := Syntax (Some (u "//")) [(u "/*", u "*/")] in
  patterns init !! c_family = Some (Profile (Some c_single) (Some c_multi)) ∧
  comment_syntax !! c_family = Some sy ∧
  Forall (λ d, contains d.2 s = false) (block_tokens sy) ∧
  remove_comments init s c_family =
    trim (collapseBlankRuns (remove_line_comments (line_token sy) s)) ∧
  remove_comments init s c_family =
    u "a = 1; /* never closed" ++ [nl] ++ u "b = 2;".
Proof.
  cbv zeta.
  assert (Hclose : Forall
    (λ d : str * str,
       contains d.2 (u "a = 1; /* never closed" ++ [nl] ++ u "b = 2; // c")
       = false)
    (block_tokens (Syntax (Some (u "//")) [(u "/*", u "*/")]))).
  { apply Forall_singleton. reflexivity. }
  split_and!; [reflexivity | reflexivity | exact Hclose | | reflexivity].
  apply (X4_unterminated_block c_family
           (Profile (Some c_single) (Some c_multi))
           (Syntax (Some (u "//")) [(u "/*", u "*/")]));
    [reflexivity | reflexivity | exact Hclose].
Defined.

End more_of_remove_comments.

Section block_comments.

Implicit Types (s t op cl a b : str) (c : char).

Lemma startswith_app_long t x y :
  length t ≤ length x → startswith t (x ++ y) = startswith t x.
Proof.
  revert x. induction t as [|e t IH]; intros [|d x] Hlen; simpl in *;
    try done; try lia.
  rewrite IH by lia. done.
Qed.

Lemma find_cons_succ t c s n :
  find t (c :: s) = Some (S n) →
  startswith t (c :: s) = false ∧ find t s = Some n.
Proof.
  cbn [find]. destruct (startswith t (c :: s)); [done|].
  destruct (find t s) as [m|]; [|done]. by intros [= ->].
Qed.

Lemma find_app t x y n : find t x = Some n → find t (x ++ y) = Some n.
Proof.
  revert n. induction x as [|c x IH]; intros n Hn.
  - assert (Hs : startswith t [] = true).
    { simpl in Hn. by destruct (startswith t []). }
    destruct t; [|done]. simpl in Hn. injection Hn as <-. by destruct y.
  - pose proof (find_bound t (c :: x) n Hn) as Hb.
    change ((c :: x) ++ y) with (c :: x ++ y). cbn [find] in Hn |- *.
    change (c :: x ++ y) with ((c :: x) ++ y).
    rewrite startswith_app_long by lia.
    destruct (startswith t (c :: x)); [done|].
    destruct (find t x) as [m|]; [|done]. by rewrite (IH m).
Qed.

Lemma block_span_closed op cl b rest :
  find cl (b ++ cl) = Some (length b) →
  block_span [(op, cl)] (op ++ b ++ cl ++ rest) =
  Some (length op + length b + length cl).
Proof.
  intros Hcl. cbn [block_span]. rewrite startswith_app, drop_app_length.
  rewrite (app_assoc b cl rest). by rewrite (find_app cl (b ++ cl) rest _ Hcl).
Qed.

Lemma delete_spans_skip span x rest :
  delete_spans span (length x) (x ++ rest) = delete_spans span 0 rest.
Proof.
  induction x as [|c x IH]; cbn [app length]; [|done].
  destruct rest; [done|]. done.
Qed.

Lemma delete_block_closed op cl a b rest :
  op ≠ [] →
  find op (a ++ op) = Some (length a) →
  find cl (b ++ cl) = Some (length b) →
  delete_block_comments [(op, cl)] (a ++ op ++ b ++ cl ++ rest) =
  a ++ delete_block_comments [(op, cl)] rest.
Proof.
  intros Hne Hop Hcl. unfold delete_block_comments.
  induction a as [|x a IH].
  - destruct op as [|o op]; [done|].
    pose proof (block_span_closed (o :: op) cl b rest Hcl) as Hspan.
    cbn [app length plus] in Hspan. cbn [app delete_spans]. rewrite Hspan.
    replace (length op + length b + length cl)
      with (length (op ++ b ++ cl)) by (rewrite !length_app; lia).
    replace (op ++ b ++ cl ++ rest) with ((op ++ b ++ cl) ++ rest)
      by (by rewrite <- !app_assoc).
    apply delete_spans_skip.
  - apply (find_cons_succ op x (a ++ op)) in Hop as [Hx Ha].
    change ((x :: a) ++ op ++ b ++ cl ++ rest)
      with (x :: a ++ op ++ b ++ cl ++ rest).
    cbn [delete_spans].
    assert (block_span [(op, cl)] (x :: a ++ op ++ b ++ cl ++ rest) = None)
      as ->.
    { cbn [block_span].
      replace (x :: a ++ op ++ b ++ cl ++ rest)
        with ((x :: a ++ op) ++ b ++ cl ++ rest)
        by (by simpl; rewrite <- !app_assoc).
      rewrite startswith_app_long by (simpl; rewrite length_app; lia).
      by rewrite Hx. }
    cbn [app]. f_equal. by apply IH.
Qed.

(** X5: a block comment is deleted from its opening token through the nearest
    closing token, across line ends, and the scan goes on behind it: where
    the first opening token of the text stands at the end of [a] and the
    first closing token behind it stands at the end of [b], the block
    pattern gives [a] followed by what it gives for the rest. *)
Theorem X5_block_comment_deleted op cl a b rest :
  op ≠ [] →
  find op (a ++ op) = Some (length a) →
  find cl (b ++ cl) = Some (length b) →
  sub (block_re op cl) [] (a ++ op ++ b ++ cl ++ rest) =
  a ++ sub (block_re op cl) [] rest.
Proof.
  intros Hne Hop Hcl.
  assert (Hstep : ∀ s, sub (block_re op cl) [] s =
                       delete_block_comments [(op, cl)] s).
  { intros s. apply block_step; [by apply Forall_singleton|].
    intros x. apply match_len_block. }
  rewrite !Hstep. by apply delete_block_closed.
Qed.

Lemma X5_witness :
  let a := u "int x; /" in
  let b := u " one" ++ [nl] ++ u "two *" in
  let rest := u " int y; /* z */" in
  u "/*" ≠ [] ∧
  find (u "/*") (a ++ u "/*") = Some (length a) ∧
  find (u "*/") (b ++ u "*/") = Some (length b) ∧
  sub c_multi [] (a ++ u "/*" ++ b ++ u "*/" ++ rest) =
    a ++ sub c_multi [] rest ∧
  sub c_multi [] (a ++ u "/*" ++ b ++ u "*/" ++ rest) = u "int x; / int y; ".
Proof.
  cbv zeta.
  split_and!; [discriminate | reflexivity | reflexivity | | reflexivity].
  apply (X5_block_comment_deleted (u "/*") (u "*/"));
    [discriminate | reflexivity | reflexivity].
Defined.

End block_comments.

Section inferred_language.

(** X6: the language that [get_language_from_filename] gives is a key of the
    pattern registry for every file name, so [remove_comments] with the
    inferred language never takes the branch that returns the text as it is:
    it runs the four steps. *)
Theorem X6_inferred_language_known os filename :
  ∃ p sy,
    patterns init !! get_language_from_filename os init filename = Some p ∧
    comment_syntax !! get_language_from_filename os init filename = Some sy ∧
    ∀ s, remove_comments init s (get_language_from_filename os init filename)
         = pipeline sy s.
Proof.
  assert (Hknown : ∃ p,
    patterns init !! get_language_from_filename os init filename = Some p).
  { unfold get_language_from_filename. cbn zeta.
    destruct (extension_map init !! lower (splitext os filename).2)
      as [l|] eqn:E; [|by eexists].
    apply elem_of_list_to_map_2 in E. cbn [default].
    repeat (apply elem_of_cons in E as [[= _ ->]|E]; [by eexists|]).
    by apply elem_of_nil in E. }
  destruct Hknown as [p Hp].
  destruct (registry_implements _ p Hp) as (sy & Hsy & Himpl).
  exists p, sy. split_and!; [done..|].
  intros s. by apply remove_comments_implements with p.
Qed.

End inferred_language.

(** ** File names *)

Section file_names.

Implicit Types (s p q : str) (c : char) (os : os_path).

Lemma rfind_from_app c a b i last :
  rfind_from c (a ++ b) i last =
  rfind_from c b (i + Z.of_nat (length a)) (rfind_from c a i last).
Proof.
  revert i last. induction a as [|x a IH]; intros i last.
  - simpl. by rewrite Z.add_0_r.
  - cbn [app rfind_from length]. rewrite IH. f_equal. lia.
Qed.

Lemma rfind_from_present c s i last :
  c ∈ s → (i ≤ rfind_from c s i last)%Z.
Proof.
  revert i last. induction s as [|x s IH]; intros i last Hin.
  - by apply elem_of_nil in Hin.
  - cbn [rfind_from]. destruct (decide (c ∈ s)) as [Hs|Hs].
    + etrans; [|by apply IH]. lia.
    + apply elem_of_cons in Hin as [->|?]; [|done].
      rewrite N.eqb_refl. by rewrite rfind_from_absent.
Qed.

Lemma rfind_from_upper c s i last :
  (last < i + Z.of_nat (length s))%Z →
  (rfind_from c s i last < i + Z.of_nat (length s))%Z.
Proof.
  revert i last. induction s as [|x s IH]; intros i last Hlast;
    cbn [rfind_from length] in *.
  - lia.
  - specialize (IH (i + 1)%Z (if (x =? c)%N then i else last)).
    destruct (x =? c)%N; lia.
Qed.

Lemma rfind_upper c s : (rfind c s < Z.of_nat (length s))%Z.
Proof. apply (rfind_from_upper c s 0 (-1)). lia. Qed.

(** The last occurrence: nothing of the kind behind it. *)
Lemma rfind_from_split c s i last :
  ((c ∉ s) ∧ rfind_from c s i last = last) ∨
  (∃ a b, s = a ++ c :: b ∧ (c ∉ b) ∧
          rfind_from c s i last = (i + Z.of_nat (length a))%Z).
Proof.
  revert i last. induction s as [|x s IH]; intros i last.
  - left. split; [apply not_elem_of_nil | done].
  - cbn [rfind_from].
    destruct (IH (i + 1)%Z (if (x =? c)%N then i else last))
      as [[Hs Hr]|(a & b & -> & Hb & Hr)].
    + rewrite Hr. destruct (N.eqb_spec x c) as [->|Hx].
      * right. exists [], s. split_and!; [done..|]. simpl. lia.
      * left. split; [|done]. apply not_elem_of_cons. by split.
    + right. exists (x :: a), b. split_and!; [done..|].
      rewrite Hr. cbn [length]. lia.
Qed.

Lemma rfind_split c s :
  (0 ≤ rfind c s)%Z →
  ∃ a b, s = a ++ c :: b ∧ (c ∉ b) ∧ rfind c s = Z.of_nat (length a).
Proof.
  intros Hr. unfold rfind in *.
  destruct (rfind_from_split c s 0 (-1)) as [[_ H]|(a & b & ? & ? & H)];
    [lia|]. exists a, b. split_and!; [done..|]. rewrite H. lia.
Qed.

Lemma rfind_app_absent c a b : c ∉ b → rfind c (a ++ b) = rfind c a.
Proof.
  intros Hb. unfold rfind. rewrite rfind_from_app.
  by apply rfind_from_absent.
Qed.

Lemma rfind_app_last c a b :
  c ∉ b → rfind c (a ++ c :: b) = Z.of_nat (length a).
Proof.
  intros Hb. unfold rfind. rewrite rfind_from_app. cbn [rfind_from].
  rewrite N.eqb_refl. rewrite rfind_from_absent by done. lia.
Qed.

Lemma rfind_behind c a b :
  (rfind c (a ++ b) < Z.of_nat (length a))%Z → c ∉ b.
Proof.
  intros Hr Hin. unfold rfind in Hr. rewrite rfind_from_app in Hr.
  pose proof (rfind_from_present c b (0 + Z.of_nat (length a))
                (rfind_from c a 0 (-1)) Hin). lia.
Qed.

Lemma splitext_eq os p :
  splitext os p =
  if (sep_index os p <? rfind 46%N p)%Z
  then skip_leading_dots p 46%N (Z.to_nat (rfind 46%N p))
         (Z.to_nat (rfind 46%N p - (sep_index os p + 1)))
         (Z.to_nat (sep_index os p + 1))
  else (p, []).
Proof. unfold splitext, _splitext, sep_index. by destruct (altsep os). Qed.

Lemma sep_index_lower os p : (-1 ≤ sep_index os p)%Z.
Proof.
  unfold sep_index. pose proof (rfind_lower (sep os) p).
  destruct (altsep os) as [a|]; [|done]. pose proof (rfind_lower a p). lia.
Qed.

(** The loop of [_splitext] looks at [n] characters from index [i] on. *)
Lemma skip_leading_dots_spec p d n i :
  skip_leading_dots p 46%N d n i =
  if forallb (λ j, bool_decide (take 1 (drop j p) = [46%N])) (seq i n)
  then (p, [])
  else (take d p, drop d p).
Proof.
  revert i. induction n as [|n IH]; intros i; [done|].
  cbn [skip_leading_dots seq forallb].
  by repeat case_bool_decide; cbn [negb andb].
Qed.

Lemma forallb_seq_shift (f g : nat → bool) i j n :
  (∀ k, k < n → f (i + k) = g (j + k)) →
  forallb f (seq i n) = forallb g (seq j n).
Proof.
  revert i j. induction n as [|n IH]; intros i j H; [done|].
  cbn [seq forallb]. f_equal.
  - specialize (H 0 ltac:(lia)). by rewrite !Nat.add_0_r in H.
  - apply IH. intros k Hk. specialize (H (S k) ltac:(lia)).
    by rewrite !Nat.add_succ_r in H.
Qed.

Lemma forallb_seq_longer (f : nat → bool) i n m :
  n ≤ m → forallb f (seq i n) = false → forallb f (seq i m) = false.
Proof.
  intros Hnm. replace m with (n + (m - n)) by lia.
  rewrite seq_app, forallb_app. by intros ->.
Qed.

Lemma rfind_present c s : c ∈ s → (0 ≤ rfind c s)%Z.
Proof. apply rfind_from_present. Qed.

Lemma rfind_last_component x c dir name :
  x ∉ name →
  rfind x (dir ++ c :: name) =
  if decide (x = c) then Z.of_nat (length dir) else rfind x dir.
Proof.
  intros Hx. destruct (decide (x = c)) as [->|Hxc].
  - by apply rfind_app_last.
  - apply rfind_app_absent. by apply not_elem_of_cons.
Qed.

Lemma sep_index_last_component os dir c name :
  is_sep os c → (∀ x, x ∈ name → ¬ is_sep os x) →
  sep_index os (dir ++ c :: name) = Z.of_nat (length dir).
Proof.
  intros Hc Hname. unfold sep_index.
  assert (Hsep : sep os ∉ name) by (intros H; apply (Hname _ H); by left).
  rewrite (rfind_last_component (sep os)) by done.
  pose proof (rfind_upper (sep os) dir).
  destruct (altsep os) as [a|] eqn:Ha.
  - assert (Ha' : a ∉ name) by (intros H'; apply (Hname _ H'); by right).
    rewrite (rfind_last_component a) by done.
    pose proof (rfind_upper a dir).
    destruct Hc as [Hc|Hc].
    + rewrite (decide_True (P := sep os = c)) by done.
      destruct (decide (a = c)); lia.
    + rewrite Ha in Hc. injection Hc as ->.
      rewrite (decide_True (P := c = c)) by done.
      destruct (decide (sep os = c)); lia.
  - destruct Hc as [Hc|Hc]; [by rewrite decide_True | congruence].
Qed.

Lemma sep_index_no_sep os name :
  (∀ x, x ∈ name → ¬ is_sep os x) → sep_index os name = (-1)%Z.
Proof.
  intros Hname. unfold sep_index.
  assert (Hsep : sep os ∉ name) by (intros H; apply (Hname _ H); by left).
  rewrite (rfind_absent (sep os)) by done.
  destruct (altsep os) as [a|] eqn:Ha; [|done].
  assert (Ha' : a ∉ name) by (intros H'; apply (Hname _ H'); by right).
  by rewrite (rfind_absent a).
Qed.

Lemma drop_last_component dir c name k :
  drop (S (length dir) + k) (dir ++ c :: name) = drop k name.
Proof.
  change (dir ++ c :: name) with (dir ++ [c] ++ name). rewrite app_assoc.
  apply drop_app_add'. rewrite length_app. simpl. lia.
Qed.

(** The extension is that of the last component of the path. *)
Lemma splitext_last_component os dir c name :
  is_sep os c → (∀ x, x ∈ name → ¬ is_sep os x) →
  (splitext os (dir ++ c :: name)).2 = (splitext os name).2.
Proof.
  intros Hc Hname.
  rewrite !splitext_eq, sep_index_last_component, sep_index_no_sep by done.
  destruct (decide (46%N ∈ name)) as [Hdot|Hdot].
  - destruct (rfind_split 46%N name (rfind_present _ _ Hdot))
      as (a & b & -> & Hb & Hr).
    rewrite Hr.
    pose proof (rfind_app_last 46%N (dir ++ c :: a) b Hb) as Hq.
    rewrite <- app_assoc in Hq. cbn [app] in Hq. rewrite Hq.
    rewrite length_app. cbn [length].
    rewrite !(proj2 (Z.ltb_lt _ _)) by lia.
    rewrite !skip_leading_dots_spec.
    replace (Z.to_nat (Z.of_nat (length a) - (-1 + 1))) with (length a) by lia.
    replace (Z.to_nat (-1 + 1)) with 0 by lia.
    replace (Z.to_nat (Z.of_nat (length dir + S (length a)) -
                       (Z.of_nat (length dir) + 1)))
      with (length a) by lia.
    replace (Z.to_nat (Z.of_nat (length dir) + 1)) with (S (length dir))
      by lia.
    rewrite !Nat2Z.id.
    rewrite (forallb_seq_shift _
      (λ j, bool_decide (take 1 (drop j (a ++ 46%N :: b)) = [46%N]))
      (S (length dir)) 0 (length a)).
    + destruct (forallb _ (seq 0 (length a))); [done|]. cbn [snd].
      replace (length dir + S (length a)) with (S (length dir) + length a)
        by lia.
      apply drop_last_component.
    + intros k Hk. by rewrite drop_last_component.
  - rewrite (rfind_absent 46%N name) by done.
    rewrite (rfind_last_component 46%N) by done.
    pose proof (rfind_upper 46%N dir).
    rewrite !(proj2 (Z.ltb_ge _ _)); [done|lia|].
    case_decide; lia.
Qed.

(** X7: the language is inferred from the last component of a path: what
    stands before the last separator, dots included, makes no difference. *)
Theorem X7_language_of_last_component os dir c name :
  is_sep os c → (∀ x, x ∈ name → ¬ is_sep os x) →
  get_language_from_filename os init (dir ++ c :: name) =
  get_language_from_filename os init name.
Proof.
  intros Hc Hname. unfold get_language_from_filename.
  by rewrite splitext_last_component.
Qed.

Lemma X7_witness :
  let dir := u "C:\proj.d/v1.2" in
  let name := u "query.SQL" in
  is_sep ntpath 92%N ∧ (∀ x, x ∈ name → ¬ is_sep ntpath x) ∧
  get_language_from_filename ntpath init (dir ++ 92%N :: name) =
    get_language_from_filename ntpath init name ∧
  get_language_from_filename ntpath init (dir ++ 92%N :: name) = u "SQL".
Proof.
  cbv zeta.
  assert (Hname : ∀ x, x ∈ u "query.SQL" → ¬ is_sep ntpath x).
  { intros x Hx [->|[= <-]]; revert Hx; by apply absent_check. }
  split_and!; [by left | exact Hname | | reflexivity].
  apply (X7_language_of_last_component ntpath); [by left | exact Hname].
Defined.

Lemma sep_index_app_absent os p t :
  (∀ x, x ∈ t → ¬ is_sep os x) → sep_index os (p ++ t) = sep_index os p.
Proof.
  intros Ht. unfold sep_index.
  assert (Hsep : sep os ∉ t) by (intros H; apply (Ht _ H); by left).
  rewrite (rfind_app_absent (sep os)) by done.
  destruct (altsep os) as [a|] eqn:Ha; [|done].
  assert (Ha' : a ∉ t) by (intros H'; apply (Ht _ H'); by right).
  by rewrite (rfind_app_absent a).
Qed.

(** No separator stands behind an index that lies behind [sep_index]. *)
Lemma sep_index_behind os a b :
  (sep_index os (a ++ b) < Z.of_nat (length a))%Z →
  ∀ x, x ∈ b → ¬ is_sep os x.
Proof.
  unfold sep_index. intros Hlt x Hx [->|Ha].
  - apply (rfind_behind (sep os) a b); [|done]. destruct (altsep os); lia.
  - rewrite Ha in Hlt. apply (rfind_behind x a b); [lia | done].
Qed.

Lemma take1_drop_app j (a r1 r2 : str) :
  j < length a → take 1 (drop j (a ++ r1)) = take 1 (drop j (a ++ r2)).
Proof.
  intros Hj. rewrite !drop_app_le by lia.
  destruct (drop j a) as [|x l] eqn:E; [|done].
  apply (f_equal length) in E. rewrite length_drop in E. simpl in E. lia.
Qed.

Lemma not_sep_app os t1 t2 :
  (∀ x, x ∈ t1 → ¬ is_sep os x) → (∀ x, x ∈ t2 → ¬ is_sep os x) →
  ∀ x, x ∈ t1 ++ t2 → ¬ is_sep os x.
Proof. intros H1 H2 x [?|?]%elem_of_app; auto. Qed.

(** A text without dots and separators that is put before the extension
    becomes the end of the root, and the extension stays. *)
Lemma splitext_insert os p t :
  46%N ∉ t → (∀ x, x ∈ t → ¬ is_sep os x) →
  splitext os ((splitext os p).1 ++ t ++ (splitext os p).2) =
  ((splitext os p).1 ++ t, (splitext os p).2).
Proof.
  intros Hdot Hsep. rewrite (splitext_eq os p).
  destruct (Z.ltb_spec (sep_index os p) (rfind 46%N p)) as [Hlt|Hge].
  - rewrite skip_leading_dots_spec.
    destruct (forallb _ _) eqn:Hall; cbn [fst snd].
    + rewrite app_nil_r, splitext_eq.
      rewrite sep_index_app_absent, rfind_app_absent by done.
      rewrite (proj2 (Z.ltb_lt _ _)) by done.
      rewrite skip_leading_dots_spec.
      rewrite (forallb_seq_shift _
        (λ j, bool_decide (take 1 (drop j p) = [46%N]))
        (Z.to_nat (sep_index os p + 1)) (Z.to_nat (sep_index os p + 1))).
      * by rewrite Hall.
      * intros k Hk. pose proof (rfind_upper 46%N p).
        pose proof (sep_index_lower os p).
        rewrite (take1_drop_app _ p t []) by lia. by rewrite app_nil_r.
    + pose proof (sep_index_lower os p) as Hlow.
      destruct (rfind_split 46%N p ltac:(lia)) as (a & b & -> & Hb & Hr).
      rewrite Hr in *. rewrite Nat2Z.id in *.
      rewrite take_app_length, drop_app_length.
      pose proof (sep_index_behind os a (46%N :: b) Hlt) as Hbehind.
      assert (Hsi : sep_index os (a ++ t ++ (46%N : char) :: b) =
                    sep_index os (a ++ (46%N : char) :: b)).
      { rewrite !sep_index_app_absent; [done..|]. by apply not_sep_app. }
      rewrite splitext_eq, Hsi.
      pose proof (rfind_app_last 46%N (a ++ t) b Hb) as Hq.
      rewrite <- app_assoc in Hq. rewrite Hq, length_app.
      rewrite (proj2 (Z.ltb_lt _ _)) by lia.
      rewrite skip_leading_dots_spec.
      rewrite (forallb_seq_longer _ _
        (Z.to_nat (Z.of_nat (length a) -
                   (sep_index os (a ++ (46%N : char) :: b) + 1))));
        [| lia |].
      * rewrite Nat2Z.id. rewrite (app_assoc a t).
        rewrite <- length_app.
        by rewrite take_app_length, drop_app_length.
      * rewrite <- Hall. apply forallb_seq_shift. intros k Hk.
        by rewrite (take1_drop_app _ a (t ++ 46%N :: b) (46%N :: b)) by lia.
  - cbn [fst snd]. rewrite app_nil_r, splitext_eq.
    rewrite sep_index_app_absent, rfind_app_absent by done.
    by rewrite (proj2 (Z.ltb_ge _ _)) by done.
Qed.

(** X8: the file name that the save dialog proposes for a loaded file is the
    path with [_nocomments] put before the extension: its extension is the
    extension of the loaded file, so the same language is inferred from
    both. *)
Theorem X8_default_filename os path :
  os ∈ [posixpath; ntpath] → truthy path = true →
  default_filename os (Some path) =
    (splitext os path).1 ++ u "_nocomments" ++ (splitext os path).2 ∧
  splitext os (default_filename os (Some path)) =
    ((splitext os path).1 ++ u "_nocomments", (splitext os path).2) ∧
  get_language_from_filename os init (default_filename os (Some path)) =
    get_language_from_filename os init path.
Proof.
  intros Hos Hpath.
  assert (Hname : default_filename os (Some path) =
    (splitext os path).1 ++ u "_nocomments" ++ (splitext os path).2).
  { unfold default_filename. rewrite Hpath. by destruct (splitext os path). }
  assert (Hsplit : splitext os (default_filename os (Some path)) =
    ((splitext os path).1 ++ u "_nocomments", (splitext os path).2)).
  { rewrite Hname. apply splitext_insert; [by apply absent_check|].
    intros x Hx Hsep. revert Hx.
    repeat (apply elem_of_cons in Hos as [->|Hos]);
      [| |by apply elem_of_nil in Hos];
      destruct Hsep as [->|[= <-]]; by apply absent_check. }
  split_and!; [done..|].
  unfold get_language_from_filename. by rewrite Hsplit.
Qed.

Lemma X8_witness :
  let path := u "/home/me/v1.2/main.RS" in
  posixpath ∈ [posixpath; ntpath] ∧ truthy path = true ∧
  (default_filename posixpath (Some path) =
     (splitext posixpath path).1 ++ u "_nocomments" ++
     (splitext posixpath path).2 ∧
   splitext posixpath (default_filename posixpath (Some path)) =
     ((splitext posixpath path).1 ++ u "_nocomments",
      (splitext posixpath path).2) ∧
   get_language_from_filename posixpath init
     (default_filename posixpath (Some path)) =
   get_language_from_filename posixpath init path) ∧
  default_filename posixpath (Some path) =
    u "/home/me/v1.2/main_nocomments.RS".
Proof.
  cbv zeta.
  split; [apply list_elem_of_here|]. split; [reflexivity|].
  split; [|reflexivity].
  apply (X8_default_filename posixpath);
    [apply list_elem_of_here | reflexivity].
Defined.

End file_names.


(** ** Themes *)

Section themes.

Import Theme.

Implicit Types (theme inputs : gmap str str) (self : window)
  (manager : ThemeManager) (template : list segment).

Lemma format_is_Some theme template :
  (∀ key, Field key ∈ template → is_Some (theme !! key)) ↔
  is_Some (format theme template).
Proof.
  induction template as [|[text|key] template IH]; cbn [format].
  - split; [by eexists | intros _ key Hin; by apply elem_of_nil in Hin].
  - rewrite fmap_is_Some, <- IH. split.
    + intros H key Hin. apply H. by apply list_elem_of_further.
    + intros H key [[=]|Hin]%elem_of_cons. by apply H.
  - split.
    + intros H. destruct (H key) as [value Hv]; [apply list_elem_of_here|].
      rewrite Hv. rewrite fmap_is_Some. apply IH.
      intros key' Hin. apply H. by apply list_elem_of_further.
    + intros Hsome key' [[= ->]|Hin]%elem_of_cons.
      * destruct (theme !! key); [by eexists|]. by destruct Hsome.
      * destruct (theme !! key); [|by destruct Hsome].
        rewrite fmap_is_Some in Hsome. by apply IH.
Qed.

(** The fields of the style sheet are the ten colours. *)
Lemma template_fields key :
  Field key ∈ style_template ↔ key ∈ color_names.
Proof.
  split.
  - intros Hin.
    assert (Hall : forallb
      (λ seg, match seg with
              | Field k => bool_decide (k ∈ color_names)
              | Txt _ => true
              end) style_template = true) by (vm_compute; reflexivity).
    rewrite forallb_forall in Hall.
    apply list_elem_of_In, Hall in Hin. by apply bool_decide_eq_true in Hin.
  - intros Hin.
    assert (Hall : forallb
      (λ k, existsb (λ seg, match seg with
                            | Field k' => bool_decide (k' = k)
                            | Txt _ => false
                            end) style_template) color_names = true)
      by (vm_compute; reflexivity).
    rewrite forallb_forall in Hall.
    apply list_elem_of_In, Hall, existsb_exists in Hin.
    destruct Hin as ([text|k'] & Hseg & Hk); [done|].
    apply bool_decide_eq_true in Hk as ->. by apply list_elem_of_In.
Qed.

Lemma format_complete theme :
  complete theme ↔ is_Some (format theme style_template).
Proof.
  rewrite <- format_is_Some. unfold complete. rewrite Forall_forall.
  split; intros H key Hin; apply H; by apply template_fields.
Qed.

Lemma complete_built_in : complete dark ∧ complete light ∧ complete monokai.
Proof.
  split_and!; apply format_complete; vm_compute; by eexists.
Qed.

Lemma get_theme_current manager theme fallback :
  themes manager !! u "Dark" = Some fallback →
  themes manager !! current_theme manager = Some theme →
  get_theme manager None = Some theme.
Proof. unfold get_theme. intros -> ->. done. Qed.

Lemma get_style_sheet_current manager theme fallback :
  themes manager !! u "Dark" = Some fallback →
  themes manager !! current_theme manager = Some theme →
  get_style_sheet manager None = format theme style_template.
Proof.
  intros Hd Hc. unfold get_style_sheet.
  by rewrite (get_theme_current manager theme fallback).
Qed.

Lemma start_sound : ∃ self, start = Some self ∧ sound self.
Proof.
  destruct complete_built_in as (Hdark & Hlight & Hmonokai).
  destruct (proj1 (format_complete dark) Hdark) as [sheet Hsheet].
  exists {| theme_manager := init; style_sheet := sheet |}. split.
  - unfold start.
    rewrite (get_style_sheet_current init dark dark) by done.
    by rewrite Hsheet.
  - split_and!; cbn [theme_manager style_sheet]; [done..| |by exists dark].
    intros name theme Hin. apply elem_of_list_to_map_2 in Hin.
    repeat (apply elem_of_cons in Hin as [[= _ ->]|Hin]; [done|]).
    by apply elem_of_nil in Hin.
Qed.

Lemma change_theme_sound self theme_name :
  sound self → ∃ self', change_theme self theme_name = Some self' ∧ sound self'.
Proof.
  intros (Hdark & Hlight & Hmonokai & Hall & theme & Hcur & Hsheet).
  unfold change_theme, set_theme.
  destruct (themes (theme_manager self) !! theme_name) as [theme'|] eqn:E.
  - destruct (proj1 (format_complete theme') (Hall _ _ E)) as [sheet Hs].
    rewrite (get_style_sheet_current _ theme' dark) by done.
    rewrite Hs. eexists. split; [done|].
    split_and!; cbn [theme_manager style_sheet themes current_theme];
      [done..|]. by exists theme'.
  - exists self. split; [done|]. split_and!; [done..|]. by exists theme.
Qed.

Lemma choose_color_lookup inputs color_name picked key :
  choose_color inputs color_name picked !! key =
  match picked, inputs !! color_name with
  | Some name, Some _ => if decide (color_name = key) then Some name
                         else inputs !! key
  | _, _ => inputs !! key
  end.
Proof.
  unfold choose_color. destruct picked as [name|]; [|done].
  destruct (inputs !! color_name) eqn:E; [|done].
  by rewrite lookup_insert.
Qed.

(** The line edits after the clicks: for every colour of the theme that the
    dialog was opened with, the last valid colour that was picked for it,
    or the colour of the theme. *)
Lemma clicks_lookup inputs clicks key :
  foldl (λ acc click, choose_color acc click.1 click.2) inputs clicks !! key =
  (λ value, default value (last_pick key clicks)) <$> inputs !! key.
Proof.
  induction clicks as [|[color_name picked] clicks IH] using rev_ind.
  - cbn. by destruct (inputs !! key).
  - unfold last_pick in *. rewrite !foldl_app. cbn [foldl fst snd].
    rewrite choose_color_lookup.
    destruct picked as [name|]; [|done].
    destruct (foldl _ inputs clicks !! color_name) as [old|] eqn:E.
    + destruct (decide (color_name = key)) as [->|Hne]; [|done].
      rewrite E in IH. by destruct (inputs !! key).
    + destruct (decide (color_name = key)) as [->|Hne]; [|done].
      rewrite IH. rewrite E in IH. by destruct (inputs !! key).
Qed.

Lemma clicks_complete inputs clicks :
  complete inputs →
  complete (foldl (λ acc click, choose_color acc click.1 click.2)
              inputs clicks).
Proof.
  unfold complete. rewrite !Forall_forall. intros H key Hin.
  rewrite clicks_lookup. destruct (H key Hin) as [value ->]. by eexists.
Qed.

Lemma customize_sound self clicks accepted :
  sound self →
  ∃ self', show_color_customization self clicks accepted = Some self' ∧
           sound self'.
Proof.
  intros (Hdark & Hlight & Hmonokai & Hall & theme & Hcur & Hsheet).
  unfold show_color_customization, init_ui.
  rewrite (get_theme_current _ theme dark) by done. cbn [mbind option_bind].
  destruct accepted.
  - set (inputs := foldl _ theme clicks).
    assert (Hinputs : complete inputs) by (apply clicks_complete; eauto).
    destruct (proj1 (format_complete inputs) Hinputs) as [sheet Hs].
    unfold set_theme, get_custom_colors. cbn [themes].
    rewrite lookup_insert_eq. cbn [fst].
    rewrite (get_style_sheet_current _ inputs dark);
      cbn [themes current_theme];
      [| by rewrite lookup_insert_ne | by rewrite lookup_insert_eq].
    rewrite Hs. eexists. split; [done|].
    split_and!; cbn [theme_manager style_sheet themes current_theme].
    + by rewrite lookup_insert_ne.
    + by rewrite lookup_insert_ne.
    + by rewrite lookup_insert_ne.
    + intros name theme' [[_ <-]|[_ Hin]]%lookup_insert_Some; eauto.
    + exists inputs. by rewrite lookup_insert_eq.
  - exists self. split; [done|]. split_and!; [done..|]. by exists theme.
Qed.

Lemma handle_sound self e :
  sound self → ∃ self', handle self e = Some self' ∧ sound self'.
Proof.
  destruct e; [apply change_theme_sound | apply customize_sound].
Qed.

Lemma run_sound self events :
  sound self → ∃ self', run self events = Some self' ∧ sound self'.
Proof.
  revert self. induction events as [|e events IH]; intros self Hself.
  - by exists self.
  - destruct (handle_sound self e Hself) as (self1 & H1 & Hsound1).
    destruct (IH self1 Hsound1) as (self' & Hrun & Hsound').
    exists self'. split; [|done]. cbn [run]. by rewrite H1.
Qed.

(** X9: whatever the user does in the theme menu, in whatever order, no
    theme lookup fails: after every sequence of theme changes and colour
    customisations the window is in a sound state: the three built-in themes
    are unchanged, every theme holds all the colours of the style sheet, the
    current theme exists, and the style sheet of the window is the one of
    the current theme. *)
Theorem X9_themes_never_fail events :
  ∃ self0 self, start = Some self0 ∧ run self0 events = Some self ∧ sound self.
Proof.
  destruct start_sound as (self0 & Hstart & Hsound0).
  destruct (run_sound self0 events Hsound0) as (self & Hrun & Hsound).
  by exists self0, self.
Qed.

(** X10: an accepted colour customisation makes the theme ['Custom'] current;
    it holds, for every colour of the theme that was current, the last
    valid colour that was picked for it, or else the colour of that theme,
    and no other colour; the other themes stay as they are.  A
    customisation that is not accepted changes nothing. *)
Theorem X10_custom_colors self clicks :
  sound self →
  ∃ current self' custom,
    themes (theme_manager self) !! current_theme (theme_manager self)
      = Some current ∧
    show_color_customization self clicks true = Some self' ∧
    current_theme (theme_manager self') = u "Custom" ∧
    themes (theme_manager self') !! u "Custom" = Some custom ∧
    (∀ key, custom !! key =
            (λ value, default value (last_pick key clicks)) <$> current !! key) ∧
    (∀ name, name ≠ u "Custom" →
             themes (theme_manager self') !! name =
             themes (theme_manager self) !! name) ∧
    show_color_customization self clicks false = Some self.
Proof.
  intros Hsound.
  destruct (customize_sound self clicks true Hsound) as (self' & Hshow & _).
  destruct (customize_sound self clicks false Hsound) as (self1 & Hno & _).
  destruct Hsound as (Hdark & _ & _ & Hall & theme & Hcur & _).
  assert (Hno' : show_color_customization self clicks false = Some self).
  { unfold show_color_customization, init_ui.
    by rewrite (get_theme_current _ theme dark). }
  pose proof Hshow as Hshow'.
  unfold show_color_customization, init_ui in Hshow.
  rewrite (get_theme_current _ theme dark) in Hshow by done.
  cbn [mbind option_bind] in Hshow.
  set (inputs := foldl _ theme clicks) in *.
  unfold set_theme, get_custom_colors in Hshow. cbn [themes] in Hshow.
  rewrite lookup_insert_eq in Hshow. cbn [fst] in Hshow.
  destruct (get_style_sheet _ None) as [sheet|] eqn:Hs; [|done].
  injection Hshow as Hself'.
  exists theme, self', inputs.
  split_and!; [done | done | | | | | done]; rewrite <- ?Hself';
    cbn [theme_manager themes current_theme].
  - done.
  - by rewrite lookup_insert_eq.
  - intros key. apply clicks_lookup.
  - intros name Hne. by rewrite lookup_insert_ne.
Qed.

Lemma X10_witness :
  let clicks := [(u "accent", Some (u "#ff0000")); (u "text", None);
                 (u "accent", Some (u "#00ff00")); (u "colour", Some (u "#1"))] in
  ∃ self0, start = Some self0 ∧ sound self0 ∧
  ∃ current self' custom,
    themes (theme_manager self0) !! current_theme (theme_manager self0)
      = Some current ∧
    show_color_customization self0 clicks true = Some self' ∧
    current_theme (theme_manager self') = u "Custom" ∧
    themes (theme_manager self') !! u "Custom" = Some custom ∧
    (∀ key, custom !! key =
            (λ value, default value (last_pick key clicks)) <$> current !! key) ∧
    (∀ name, name ≠ u "Custom" →
             themes (theme_manager self') !! name =
             themes (theme_manager self0) !! name) ∧
    show_color_customization self0 clicks false = Some self0.
Proof.
  cbv zeta. destruct start_sound as (self0 & Hstart & Hsound).
  exists self0. split; [exact Hstart|]. split; [exact Hsound|].
  apply (X10_custom_colors self0). exact Hsound.
Defined.

(** X11: [get_theme] raises [KeyError] exactly when there is no theme
    ['Dark'], also for a name that is there; a name that is not there gives
    the theme ['Dark'] and is refused by [set_theme], which changes
    nothing; a name that [set_theme] accepts is the theme that [get_theme]
    gives afterwards. *)
Theorem X11_get_and_set_theme manager :
  (∀ name, get_theme manager name = None ↔
           themes manager !! u "Dark" = None) ∧
  (∀ name, themes manager !! name = None →
           set_theme manager name = (manager, false) ∧
           get_theme manager (Some name) = themes manager !! u "Dark") ∧
  (∀ name theme fallback,
     themes manager !! name = Some theme →
     themes manager !! u "Dark" = Some fallback →
     (set_theme manager name).2 = true ∧
     themes (set_theme manager name).1 = themes manager ∧
     get_theme (set_theme manager name).1 None = Some theme).
Proof.
  split_and!.
  - intros name. unfold get_theme.
    by destruct (themes manager !! u "Dark").
  - intros name Hname. unfold set_theme, get_theme. rewrite Hname.
    by destruct (themes manager !! u "Dark").
  - intros name theme fallback Hname Hdark. unfold set_theme. rewrite Hname.
    split_and!; [done..|].
    by apply (get_theme_current _ theme fallback).
Qed.

Lemma X11_witness :
  (get_theme init (Some (u "Light")) = None ↔
   themes init !! u "Dark" = None) ∧
  (themes init !! u "Solarized" = None ∧
   set_theme init (u "Solarized") = (init, false) ∧
   get_theme init (Some (u "Solarized")) = themes init !! u "Dark") ∧
  (themes init !! u "Monokai" = Some monokai ∧
   themes init !! u "Dark" = Some dark ∧
   (set_theme init (u "Monokai")).2 = true ∧
   themes (set_theme init (u "Monokai")).1 = themes init ∧
   get_theme (set_theme init (u "Monokai")).1 None = Some monokai).
Proof.
  split; [apply (proj1 (X11_get_and_set_theme init))|]. split.
  - split; [reflexivity|].
    apply (proj1 (proj2 (X11_get_and_set_theme init))). reflexivity.
  - split; [reflexivity|]. split; [reflexivity|].
    apply (proj2 (proj2 (X11_get_and_set_theme init)) (u "Monokai") monokai dark);
      reflexivity.
Defined.

(** X12: [get_style_sheet] raises [KeyError] exactly when the theme lacks one
    of the ten colours that the style sheet names; a theme that holds them
    all, and whatever else, gives a style sheet. *)
Theorem X12_style_sheet_needs_all_colors manager theme_name theme :
  get_theme manager theme_name = Some theme →
  (get_style_sheet manager theme_name = None ↔
   ∃ key, key ∈ color_names ∧ theme !! key = None).
Proof.
  intros Htheme. unfold get_style_sheet. rewrite Htheme.
  cbn [mbind option_bind].
  pose proof (format_complete theme) as Hc. unfold complete in Hc.
  rewrite Forall_forall in Hc. split.
  - intros Hnone.
    destruct (decide (Forall (λ key, is_Some (theme !! key)) color_names))
      as [Hall|Hex].
    + rewrite Forall_forall in Hall. apply (proj1 Hc) in Hall.
      rewrite Hnone in Hall. by destruct Hall.
    + apply not_Forall_Exists in Hex; [|apply _].
      apply Exists_exists in Hex as (key & Hin & Hkey).
      exists key. split; [done|]. by apply eq_None_not_Some.
  - intros (key & Hin & Hkey).
    apply eq_None_not_Some. intros Hsome.
    pose proof (proj2 Hc Hsome key Hin) as Hk.
    rewrite Hkey in Hk. by destruct Hk.
Qed.

Lemma X12_witness :
  let manager :=
    {| themes := {[ u "Dark" := delete (u "border") dark ]};
       current_theme := u "Dark";
       custom_colors := ∅ |} in
  get_theme manager None = Some (delete (u "border") dark) ∧
  (get_style_sheet manager None = None ↔
   ∃ key, key ∈ color_names ∧ delete (u "border") dark !! key = None) ∧
  get_style_sheet manager None = None.
Proof.
  cbv zeta. split; [reflexivity|]. split; [|reflexivity].
  apply X12_style_sheet_needs_all_colors. reflexivity.
Defined.

End themes.


Section only_comments.

Implicit Types (s t tok : str) (c : char) (ls : list str).

Lemma blank_app s t : blank (s ++ t) = blank s && blank t.
Proof. apply forallb_app. Qed.

Lemma blank_join ls :
  Forall (λ l, blank l = true) ls → blank (join [nl] ls) = true.
Proof.
  induction 1 as [|l ls Hl Hls IH]; [done|].
  destruct ls as [|l' ls]; [done|].
  rewrite join_cons by done. rewrite blank_app, Hl.
  change (blank (nl :: join [nl] (l' :: ls)))
    with (isspace nl && blank (join [nl] (l' :: ls))).
  by rewrite IH.
Qed.

(** X13: a text of comments only gives the empty text: for a known language
    with a single-line pattern, when no token that opens a block comment
    occurs in the text and every line is blank before its first single-line
    token, nothing is left. *)
Theorem X13_only_comments_gives_empty L p sy tok s :
  patterns init !! L = Some p → comment_syntax !! L = Some sy →
  line_token sy = Some tok →
  Forall (λ d, contains d.1 s = false) (block_tokens sy) →
  Forall (λ line, blank (cut_at tok line) = true) (split nl s) →
  remove_comments init s L = [].
Proof.
  intros HL Hsy Htok Hopen Hlines.
  destruct (registry_implements L p HL) as (sy' & Hsy' & Himpl).
  assert (sy' = sy) as -> by congruence.
  rewrite (remove_comments_implements init L p sy) by done.
  unfold pipeline, trim. rewrite delete_block_no_open by done.
  apply strip_blank. eapply blank_sublist; [apply collapse_sublist|].
  rewrite Htok. unfold remove_line_comments. apply blank_join.
  induction Hlines as [|l ls Hl _ IH]; [done|].
  cbn [List.filter]. destruct (keeps (Some tok) l); [|done].
  cbn [fmap list_fmap]. by constructor.
Qed.

Lemma X13_witness :
  let s := u "# a script" ++ [nl; nl] ++ u "   # with notes" ++ [nl] ++
           u "#" ++ [nl] in
  let sy := Syntax (Some (u "#"))
              [(triple dquote, triple dquote); (triple squote, triple squote)] in
  patterns init !! u "Python" =
    Some (Profile (Some py_single) (Some py_multi)) ∧
  comment_syntax !! u "Python" = Some sy ∧
  line_token sy = Some (u "#") ∧
  Forall (λ d, contains d.1 s = false) (block_tokens sy) ∧
  Forall (λ line, blank (cut_at (u "#") line) = true) (split nl s) ∧
  remove_comments init s (u "Python") = [].
Proof.
  cbv zeta.
  assert (Hopen : Forall
    (λ d : str * str,
       contains d.1 (u "# a script" ++ [nl; nl] ++ u "   # with notes" ++
                     [nl] ++ u "#" ++ [nl]) = false)
    (block_tokens
       (Syntax (Some (u "#"))
          [(triple dquote, triple dquote); (triple squote, triple squote)]))).
  { repeat (apply Forall_cons; split; [reflexivity|]). apply Forall_nil_2. }
  assert (Hlines : Forall
    (λ line, blank (cut_at (u "#") line) = true)
    (split nl (u "# a script" ++ [nl; nl] ++ u "   # with notes" ++
               [nl] ++ u "#" ++ [nl]))).
  { repeat (apply Forall_cons; split; [reflexivity|]). apply Forall_nil_2. }
  split_and!; [reflexivity | reflexivity | reflexivity | exact Hopen
              | exact Hlines |].
  apply (X13_only_comments_gives_empty (u "Python")
           (Profile (Some py_single) (Some py_multi))
           (Syntax (Some (u "#"))
              [(triple dquote, triple dquote);
               (triple squote, triple squote)]) (u "#"));
    [reflexivity | reflexivity | reflexivity | exact Hopen | exact Hlines].
Defined.

End only_comments.

Section letter_case.

Implicit Types (s p q : str) (c x : char) (os : os_path) (f : char → char).

Lemma rfind_from_map f x s i last :
  (∀ c, f c = x ↔ c = x) →
  rfind_from x (map f s) i last = rfind_from x s i last.
Proof.
  intros Hf. revert i last. induction s as [|c s IH]; intros i last; [done|].
  cbn [map rfind_from]. rewrite IH.
  destruct (N.eqb_spec (f c) x) as [H|H], (N.eqb_spec c x) as [H'|H'];
    try done.
  - by apply (proj1 (Hf c)) in H.
  - by apply (proj2 (Hf c)) in H'.
Qed.

Lemma sep_index_map f os p :
  (∀ x c, is_sep os x → f c = x ↔ c = x) →
  sep_index os (map f p) = sep_index os p.
Proof.
  intros Hf. unfold sep_index, rfind.
  rewrite rfind_from_map by (intros c; apply Hf; by left).
  destruct (altsep os) as [a|] eqn:Ha; [|done].
  by rewrite rfind_from_map by (intros c; apply Hf; by right).
Qed.

Lemma splitext_map f os p :
  (∀ c, f c = 46%N ↔ c = 46%N) →
  (∀ x c, is_sep os x → f c = x ↔ c = x) →
  splitext os (map f p) = (map f (splitext os p).1, map f (splitext os p).2).
Proof.
  intros Hdot Hsep. rewrite !splitext_eq, sep_index_map by done.
  unfold rfind. rewrite rfind_from_map by done. fold (rfind 46%N p).
  destruct (sep_index os p <? rfind 46%N p)%Z; [|done].
  rewrite !skip_leading_dots_spec.
  rewrite (forallb_seq_shift _
    (λ j, bool_decide (take 1 (drop j p) = [46%N]))
    (Z.to_nat (sep_index os p + 1)) (Z.to_nat (sep_index os p + 1))).
  - destruct (forallb _ _); [done|]. cbn [fst snd].
    by rewrite firstn_map, skipn_map.
  - intros k _. apply bool_decide_ext.
    rewrite skipn_map, firstn_map.
    destruct (take 1 (drop (Z.to_nat (sep_index os p + 1) + k) p))
      as [|c [|c' l]]; cbn [map]; [done| |done].
    split; intros [= H]; f_equal; by apply Hdot.
Qed.

Lemma lower_ascii_fold s : lower (map ascii_fold s) = lower s.
Proof.
  unfold lower. induction s as [|c s IH]; [done|].
  cbn [map flat_map]. rewrite IH. f_equal.
  unfold ascii_fold, lower_char.
  destruct ((65 <=? c) && (c <=? 90))%N eqn:E; [|by rewrite E].
  apply andb_true_iff in E as [H1%N.leb_le H2%N.leb_le].
  rewrite (proj2 (N.leb_gt (c + 32) 90)) by lia. rewrite andb_false_r.
  rewrite (proj2 (N.eqb_neq (c + 32) 8490)), (proj2 (N.eqb_neq (c + 32) 304))
    by lia.
  done.
Qed.

Lemma ascii_fold_fixes x c :
  (x < 65 ∨ 90 < x)%N → (x < 97 ∨ 122 < x)%N → ascii_fold c = x ↔ c = x.
Proof.
  intros H1 H2. unfold ascii_fold.
  destruct ((65 <=? c) && (c <=? 90))%N eqn:E; [|done].
  apply andb_true_iff in E as [H3%N.leb_le H4%N.leb_le].
  split; intros <-; lia.
Qed.

(** X14: the language does not depend on the case of the ASCII letters of the
    file name: two names that differ in nothing else give the same
    language. *)
Theorem X14_letter_case_ignored os p q :
  os ∈ [posixpath; ntpath] →
  map ascii_fold p = map ascii_fold q →
  get_language_from_filename os init p = get_language_from_filename os init q.
Proof.
  intros Hos Hpq.
  assert (Hdot : ∀ c, ascii_fold c = 46%N ↔ c = 46%N)
    by (intros c; apply ascii_fold_fixes; lia).
  assert (Hsep : ∀ x c, is_sep os x → ascii_fold c = x ↔ c = x).
  { intros x c Hx. apply ascii_fold_fixes;
      repeat (apply elem_of_cons in Hos as [->|Hos]);
      try (by apply elem_of_nil in Hos);
      destruct Hx as [->|[= <-]]; cbn; lia. }
  assert (Hext : ∀ s, lower (splitext os s).2 =
                      lower (splitext os (map ascii_fold s)).2).
  { intros s. rewrite splitext_map by done. cbn [snd].
    by rewrite lower_ascii_fold. }
  unfold get_language_from_filename. by rewrite (Hext p), (Hext q), Hpq.
Qed.

Lemma X14_witness :
  let p := u "C:\Work\Report.Final\MAIN.CPP" in
  let q := u "c:\work\report.final\main.cpp" in
  ntpath ∈ [posixpath; ntpath] ∧ map ascii_fold p = map ascii_fold q ∧
  get_language_from_filename ntpath init p =
    get_language_from_filename ntpath init q ∧
  get_language_from_filename ntpath init p = c_family.
Proof.
  cbv zeta.
  assert (Hos : ntpath ∈ [posixpath; ntpath])
    by apply list_elem_of_further, list_elem_of_here.
  split_and!; [exact Hos | reflexivity | | reflexivity].
  apply (X14_letter_case_ignored ntpath); [exact Hos | reflexivity].
Defined.

End letter_case.
